(** * autosizes: width resolution, frame batching, debouncing and the
      per-element update protocol of [src/autosizes.js] (v1.0.3)

    The development is a shallow embedding: every JavaScript function of
    the module becomes a Rocq function over explicit state.  The mutable
    pieces of the program are
    - the module-level binding [config], reassigned by [initConfig];
    - the closure variables of [debounce] ([timeout], [timestamp], and the
      constant [wait] captured when [debounce] is called);
    - the closure variables of [rAF] ([running], [waiting], [queue]);
    - the element itself (attributes, class list, and the expando
      [_autosizesWidth]).
    Platform services (timers, idle callbacks, animation frames, event
    listeners) are the environment: they appear as explicit events of a
    schedule or as parameters.

    The functions are embedded first for the runs in which every call of
    the platform is carried out and returns.  What the code does when a
    closure throws inside the frame batcher, when the DOM refuses or
    rewrites a name, and when a listener changes the document under the
    live collection is embedded next to it, in [Throwing], [Dom] and
    [Live]. *)

From Stdlib Require Import ZArith Bool List Ascii String DecimalString Lia.
From stdpp Require Import base option list strings gmap.
Import ListNotations.
Local Open Scope string_scope.
Local Open Scope list_scope.
Local Open Scope Z_scope.

(** ** JavaScript values that reach the width computations

    Rendered widths ([offsetWidth]) are integers; an optional argument
    that is not passed is [undefined]; a listener may store [NaN].  These
    are the values on which [||], [<], [!==], [!] and template literals
    are used in the module. *)
Module JS.

Inductive value : Type :=
| Undefined
| NaN
| Num (n : Z).

(** ToBoolean: [undefined], [NaN] and [0] are falsy. *)
Definition truthy (v : value) : bool :=
  match v with
  | Undefined => false
  | NaN => false
  | Num n => negb (n =? 0)
  end.

(** [a || b] *)
Definition or (a b : value) : value := if truthy a then a else b.

(** [a < b] on numbers: [undefined] converts to [NaN], and every
    comparison with [NaN] is false. *)
Definition lt (a b : value) : bool :=
  match a, b with
  | Num x, Num y => x <? y
  | _, _ => false
  end.

(** [a === b]: [NaN] is not equal to itself. *)
Definition strict_eq (a b : value) : bool :=
  match a, b with
  | Undefined, Undefined => true
  | Num x, Num y => x =? y
  | _, _ => false
  end.

(** [a - b] *)
Definition sub (a b : value) : value :=
  match a, b with
  | Num x, Num y => Num (x - y)
  | _, _ => NaN
  end.

(** ToString, as used by a template literal.  An integer is printed by
    its decimal digits, which is what JavaScript does for the integers up
    to [Number.MAX_SAFE_INTEGER] in absolute value ([plain_width]
    below). *)
Definition to_string (v : value) : string :=
  match v with
  | Undefined => "undefined"
  | NaN => "NaN"
  | Num n => NilZero.string_of_int (Z.to_int n)
  end.

(** [s.includes(c)] for a one-character needle. *)
Fixpoint includes (c : ascii) (s : string) : bool :=
  match s with
  | EmptyString => false
  | String d r => if Ascii.eqb d c then true else includes c r
  end.

(** [s.split(c)] for a one-character separator. *)
Fixpoint split (c : ascii) (s : string) : list string :=
  match s with
  | EmptyString => [EmptyString]
  | String d r =>
      if Ascii.eqb d c then EmptyString :: split c r
      else match split c r with
           | h :: t => String d h :: t
           | [] => [String d EmptyString]
           end
  end.

End JS.

(** ** Configuration *)

Record Config : Type := {
  targetElementClass : string;
  processedElementClass : string;
  sizesAttr : string;
  minSize : Z;
  init : bool;
  resizeDebounce : Z;
}.

Definition defaults : Config := {|
  targetElementClass := "autosizes";
  processedElementClass := "autosized";
  sizesAttr := "sizes";
  minSize := 40;
  init := true;
  resizeDebounce := 99;
|}.

(** [window.autoSizesConfig]: any subset of the keys. *)
Record UserConfig : Type := {
  u_targetElementClass : option string;
  u_processedElementClass : option string;
  u_sizesAttr : option string;
  u_minSize : option Z;
  u_init : option bool;
  u_resizeDebounce : option Z;
}.

Definition no_overrides : UserConfig :=
  {| u_targetElementClass := None; u_processedElementClass := None;
     u_sizesAttr := None; u_minSize := None; u_init := None;
     u_resizeDebounce := None |}.

(** [{ ...defaults, ...userConfig }] *)
Definition spread (d : Config) (u : UserConfig) : Config := {|
  targetElementClass := default (targetElementClass d) (u_targetElementClass u);
  processedElementClass := default (processedElementClass d) (u_processedElementClass u);
  sizesAttr := default (sizesAttr d) (u_sizesAttr u);
  minSize := default (minSize d) (u_minSize u);
  init := default (init d) (u_init u);
  resizeDebounce := default (resizeDebounce d) (u_resizeDebounce u);
|}.

(** [initConfig]: [window.autoSizesConfig || {}] merged over the defaults. *)
Definition initConfig (autoSizesConfig : option UserConfig) : Config :=
  let userConfig := default no_overrides autoSizesConfig in
  spread defaults userConfig.

(** ** The document tree

    Only two properties of a node are read: [offsetWidth] and
    [parentNode].  The tree is finite, so a (nullable) reference to a node
    together with its chain of parents is an inductive value: [Null] is
    JavaScript's [null], and [Node w p] is a node whose [offsetWidth] is
    [w] and whose [parentNode] is [p]. *)

Inductive node : Type :=
| Null
| Node (offsetWidth : JS.value) (parentNode : node).

Definition offsetWidth (n : node) : JS.value :=
  match n with
  | Null => JS.Undefined
  | Node w _ => w
  end.

Definition parentNode (n : node) : node :=
  match n with
  | Null => Null
  | Node _ p => p
  end.

Inductive detail : Type :=
| BeforeDetail (width : JS.value) (dataAttr : bool)
| AfterDetail (width : JS.value) (sizes : string).

(** What the module does to the page, in program order. *)
Inductive dom_op : Type :=
| SetAttribute (name value : string)
| ClassListAdd (cls : string)
| DispatchEvent (name : string) (d : detail).

Record element : Type := {
  dom : node;
  attributes : gmap string string;
  classList : list string;
  _autosizesWidth : JS.value;
  oplog : list dom_op;
}.

(** ** Width Resolver: [getWidth] *)

(** The [while] loop of [getWidth]; [parent] is the loop variable of the
    same name, [width] the current width.  The three conjuncts of the loop
    condition are tested in the order of the source. *)
Fixpoint getWidth_while (cfg : Config) (elem : element)
    (parent : node) (width : JS.value) {struct parent} : JS.value :=
  if JS.lt width (JS.Num (minSize cfg)) then
    match parent with
    | Node parent_offsetWidth parent_parentNode =>
        if negb (JS.truthy (_autosizesWidth elem)) then
          getWidth_while cfg elem parent_parentNode parent_offsetWidth
        else width
    | Null => width
    end
  else width.

Definition getWidth (cfg : Config) (elem : element) (parent : node)
    (width : JS.value) : JS.value :=
  let width := JS.or width (offsetWidth (dom elem)) in
  getWidth_while cfg elem parent width.

(** ** Frame Batcher: [rAF]

    A function handed to [rAF] is a closure.  Its body is a sequence of
    statements, each of which either performs an effect on the rest of
    the program state (the world) or calls [rAF] again with another
    closure; closures are therefore data.  [E] is the type of effects and
    [perform] their meaning on the world [W].  The effects of this
    module return; what [run] and [rAF] do when a closure throws is the
    matter of [Throwing] below. *)
Module FrameBatcher.
Section Batcher.

Context {E W : Type}.
Variable perform : E → W → W.

Inductive fn : Type :=
| Return
| Do (e : E) (rest : fn)
| Schedule (f : fn) (rest : fn).

(** The closure variables [running], [waiting] and [queue] of the module
    pattern, the number of [requestAnimationFrame(run)] callbacks that
    the platform has been asked for and has not yet invoked, and the
    world. *)
Record state : Type := {
  running : bool;
  waiting : bool;
  queue : list fn;
  frames : nat;
  world : W;
}.

Definition set_world (w : W) (s : state) : state :=
  {| running := running s; waiting := waiting s; queue := queue s;
     frames := frames s; world := w |}.

Definition set_queue (q : list fn) (s : state) : state :=
  {| running := running s; waiting := waiting s; queue := q;
     frames := frames s; world := world s |}.

Definition set_running (b : bool) (s : state) : state :=
  {| running := b; waiting := waiting s; queue := queue s;
     frames := frames s; world := world s |}.

Definition set_waiting (b : bool) (s : state) : state :=
  {| running := running s; waiting := b; queue := queue s;
     frames := frames s; world := world s |}.

(** [requestAnimationFrame(run)] *)
Definition requestAnimationFrame (s : state) : state :=
  {| running := running s; waiting := waiting s; queue := queue s;
     frames := S (frames s); world := world s |}.

(** [queue.push(fn); if (!waiting) { waiting = true;
    requestAnimationFrame(run); }]: the [else] branch of [rAF]. *)
Definition enqueue (f : fn) (s : state) : state :=
  let s := set_queue (queue s ++ [f]) s in
  if negb (waiting s) then requestAnimationFrame (set_waiting true s)
  else s.

(** [fn()]: a [Schedule] statement is a call of [rAF], whose two
    branches are written out here because [rAF] calls [fn()] in turn. *)
Fixpoint call (f : fn) (s : state) : state :=
  match f with
  | Return => s
  | Do e rest => call rest (set_world (perform e (world s)) s)
  | Schedule g rest =>
      call rest (if running s then call g s else enqueue g s)
  end.

(** The function returned by the module pattern. *)
Definition rAF (f : fn) (s : state) : state :=
  if running s then call f s else enqueue f s.

(** [while (queue.length) { const fn = queue.shift(); fn(); }].  The
    loop is bounded by [fuel] iterations; [None] means that it has not
    finished within the bound. *)
Fixpoint run_while (fuel : nat) (s : state) : option state :=
  match queue s with
  | [] => Some s
  | f :: rest =>
      match fuel with
      | O => None
      | S fuel => run_while fuel (call f (set_queue rest s))
      end
  end.

Definition run (fuel : nat) (s : state) : option state :=
  let s := set_running true s in
  let s := set_waiting false s in
  s ← run_while fuel s;
  Some (set_running false s).

(** The platform invokes one pending animation-frame callback. *)
Definition frame (fuel : nat) (s : state) : option state :=
  match frames s with
  | O => None
  | S n =>
      run fuel {| running := running s; waiting := waiting s;
                  queue := queue s; frames := n; world := world s |}
  end.

(** The effects of a closure when it runs inside a batch, in program
    order: a nested [rAF] call is executed on the spot. *)
Fixpoint effects (f : fn) : list E :=
  match f with
  | Return => []
  | Do e rest => e :: effects rest
  | Schedule g rest => effects g ++ effects rest
  end.

Definition perform_all (es : list E) (w : W) : W :=
  fold_left (λ w e, perform e w) es w.

(** Scheduling a list of closures one after the other in one
    synchronous pass. *)
Definition schedule_all (fs : list fn) (s : state) : state :=
  fold_left (λ s f, rAF f s) fs s.

(** Between two tasks of the event loop no batch is executing, and an
    animation frame is awaited exactly when operations are pending. *)
Definition settled (s : state) : Prop :=
  running s = false
  ∧ waiting s = negb (bool_decide (queue s = []))
  ∧ frames s = if waiting s then 1%nat else 0%nat.

End Batcher.

Arguments fn : clear implicits.
Arguments state : clear implicits.

End FrameBatcher.

(** ** Event Signal: [triggerEvent] *)

(** The dispatched [CustomEvent], as the caller sees it when
    [dispatchEvent] has returned. *)
Record event : Type := {
  ev_detail : detail;
  defaultPrevented : bool;
}.

Definition detail_width (d : detail) : JS.value :=
  match d with
  | BeforeDetail w _ => w
  | AfterDetail w _ => w
  end.

(** The listeners registered on the element and its ancestors.  For an
    event name and the [detail] object the module built, they leave the
    (possibly mutated) [detail] and say whether one of them called
    [preventDefault()].  These are the listeners that act on the event
    and leave the page as it is. *)
Definition listeners : Type := element → string → detail → detail * bool.

(** Listeners that neither mutate nor veto. *)
Definition silent : listeners := λ _ _ d, (d, false).

Definition log_op (o : dom_op) (elem : element) : element :=
  {| dom := dom elem; attributes := attributes elem;
     classList := classList elem;
     _autosizesWidth := _autosizesWidth elem;
     oplog := oplog elem ++ [o] |}.

Definition triggerEvent (on : listeners) (elem : element) (name : string)
    (d : detail) : event * element :=
  let '(d', prevented) := on elem name d in
  ({| ev_detail := d'; defaultPrevented := prevented |},
   log_op (DispatchEvent name d) elem).

(** ** Attribute names *)

Definition hasPrefix (attr : string) : bool :=
  JS.includes "-"%char attr && negb (String.eqb attr "sizes").

Definition getBaseAttr (attr : string) : string :=
  if hasPrefix attr then
    let parts := JS.split "-"%char attr in
    List.last parts EmptyString
  else attr.

(** ** AutoSizer *)

(** [elem.getAttribute(name)], [elem.setAttribute(name, value)] and
    [elem.classList.add(cls)] for names that the DOM takes as they are
    ([well_configured] below): the attribute of that very name is read
    or written, and the class is added to the class list. *)
Definition getAttribute (elem : element) (name : string) : option string :=
  attributes elem !! name.

Definition setAttribute (name value : string) (elem : element) : element :=
  log_op (SetAttribute name value)
    {| dom := dom elem; attributes := <[name := value]> (attributes elem);
       classList := classList elem;
       _autosizesWidth := _autosizesWidth elem;
       oplog := oplog elem |}.

(** [elem.classList.add(cls)] *)
Definition classList_add (cls : string) (elem : element) : element :=
  log_op (ClassListAdd cls)
    {| dom := dom elem; attributes := attributes elem;
       classList := if decide (cls ∈ classList elem) then classList elem
                    else classList elem ++ [cls];
       _autosizesWidth := _autosizesWidth elem;
       oplog := oplog elem |}.

(** [elem._autosizesWidth = width] *)
Definition set_autosizesWidth (width : JS.value) (elem : element) : element :=
  {| dom := dom elem; attributes := attributes elem;
     classList := classList elem;
     _autosizesWidth := width;
     oplog := oplog elem |}.

(** A layout change: the platform gives the element a new rendered width
    and new ancestors' widths. *)
Definition relayout (n : node) (elem : element) : element :=
  {| dom := n; attributes := attributes elem;
     classList := classList elem;
     _autosizesWidth := _autosizesWidth elem;
     oplog := oplog elem |}.

Definition hasSizesAuto (cfg : Config) (elem : element) : bool :=
  let value := getAttribute elem (sizesAttr cfg) in
  bool_decide (value = Some "auto").

Definition setSizesAttr (cfg : Config) (sizesValue : string)
    (elem : element) : element :=
  let elem := setAttribute (sizesAttr cfg) sizesValue elem in
  if hasPrefix (sizesAttr cfg) then
    let baseAttr := getBaseAttr (sizesAttr cfg) in
    setAttribute baseAttr sizesValue elem
  else elem.

(** [`${width}px`] *)
Definition px (width : JS.value) : string :=
  JS.to_string width +:+ "px".

(** The function wrapped by [rAFIt] to make [sizeElement]. *)
Definition sizeElement_body (cfg : Config) (on : listeners)
    (width : JS.value) (elem : element) : element :=
  let elem := set_autosizesWidth width elem in
  let widthPx := px width in
  let elem := if hasSizesAuto cfg elem then setSizesAttr cfg widthPx elem
              else elem in
  let elem := if negb (String.eqb (processedElementClass cfg) "")
              then classList_add (processedElementClass cfg) elem
              else elem in
  snd (triggerEvent on elem "afterSizesUpdate" (AfterDetail width widthPx)).

Import FrameBatcher.

(** The program state of the AutoSizer for one element: the closure
    state of [rAF] around the element.  The effect carried by a queued
    closure is the [width] argument of [sizeElement]. *)
Abbreviation page := (state JS.value element).

(** [rAFIt(fn)]: the wrapped function hands a closure that applies [fn]
    to its arguments to [rAF]. *)
Definition rAFIt (cfg : Config) (on : listeners) (width : JS.value)
    (s : page) : page :=
  rAF (sizeElement_body cfg on) (Do width Return) s.

Definition sizeElement := rAFIt.

(** [getSizeElement(elem, dataAttr, width)], where [elem] is the element
    of the page; [dataAttr] is the flag after [!!]. *)
Definition getSizeElement (cfg : Config) (on : listeners)
    (dataAttr : bool) (width : JS.value) (s : page) : page :=
  let elem := world s in
  let parent := parentNode (dom elem) in
  match parent with
  | Null => s
  | Node _ _ =>
      let width := getWidth cfg elem parent width in
      let '(event, elem) :=
        triggerEvent on elem "beforeSizesUpdate" (BeforeDetail width dataAttr) in
      let s := set_world elem s in
      if defaultPrevented event then s
      else
        let width := detail_width (ev_detail event) in
        if JS.truthy width && negb (JS.strict_eq width (_autosizesWidth elem))
        then sizeElement cfg on width s
        else s
  end.

(** The animation frame of the page: the pending batch is drained. *)
Definition paint (cfg : Config) (on : listeners) (fuel : nat) (s : page)
    : option page :=
  frame (sizeElement_body cfg on) fuel s.

(** ** Debounced Trigger: [debounce]

    The closure variables [timeout] and [timestamp], the constant [wait]
    read from [config.resizeDebounce] when [debounce] is called, and the
    platform's side: the timers armed with [setTimeout(later, _)] and the
    callbacks registered with [requestIdleCallback(run)].  Time is
    [Date.now()], in milliseconds. *)
Module Debounce.

Record state : Type := {
  timeout : option positive;      (* [undefined]/[null], or a timer id *)
  timestamp : JS.value;           (* [undefined] before the first call *)
  timers : list (positive * Z);   (* armed timers: id, earliest firing time *)
  idle : nat;                     (* registered idle callbacks *)
  next_id : positive;
  executions : list Z;            (* the times at which [func()] ran *)
}.

Definition initial : state :=
  {| timeout := None; timestamp := JS.Undefined; timers := [];
     idle := 0; next_id := 1%positive; executions := [] |}.

Definition set_timeout (t : option positive) (s : state) : state :=
  {| timeout := t; timestamp := timestamp s; timers := timers s;
     idle := idle s; next_id := next_id s; executions := executions s |}.

Definition set_timestamp (t : JS.value) (s : state) : state :=
  {| timeout := timeout s; timestamp := t; timers := timers s;
     idle := idle s; next_id := next_id s; executions := executions s |}.

Definition set_timers (l : list (positive * Z)) (s : state) : state :=
  {| timeout := timeout s; timestamp := timestamp s; timers := l;
     idle := idle s; next_id := next_id s; executions := executions s |}.

Definition set_idle (n : nat) (s : state) : state :=
  {| timeout := timeout s; timestamp := timestamp s; timers := timers s;
     idle := n; next_id := next_id s; executions := executions s |}.

(** [setTimeout(later, delay)] at time [now]: the timer cannot fire
    before [now + delay]; a delay that is not a positive number counts
    as 0.  The new timer id is returned. *)
Definition setTimeout (now : Z) (delay : JS.value) (s : state)
    : positive * state :=
  let d := match delay with JS.Num d => Z.max 0 d | _ => 0 end in
  let id := next_id s in
  (id,
   {| timeout := timeout s; timestamp := timestamp s;
      timers := timers s ++ [(id, now + d)];
      idle := idle s; next_id := Pos.succ id;
      executions := executions s |}).

(** [requestIdleCallback(run)] *)
Definition requestIdleCallback (s : state) : state :=
  set_idle (S (idle s)) s.

Section Closure.

Variable wait : Z.
(** Whether [window.requestIdleCallback] exists. *)
Variable hasIdleCallback : bool.

(** [run]: [timeout = null; func();] *)
Definition run (now : Z) (s : state) : state :=
  let s := set_timeout None s in
  {| timeout := timeout s; timestamp := timestamp s; timers := timers s;
     idle := idle s; next_id := next_id s;
     executions := executions s ++ [now] |}.

Definition later (now : Z) (s : state) : state :=
  let last := JS.sub (JS.Num now) (timestamp s) in
  if JS.lt last (JS.Num wait) then
    let '(id, s) := setTimeout now (JS.sub (JS.Num wait) last) s in
    set_timeout (Some id) s
  else if hasIdleCallback then requestIdleCallback s
  else run now s.

(** The function returned by [debounce]. *)
Definition debounced (now : Z) (s : state) : state :=
  let s := set_timestamp (JS.Num now) s in
  match timeout s with
  | None =>
      let '(id, s) := setTimeout now (JS.Num wait) s in
      set_timeout (Some id) s
  | Some _ => s
  end.

(** What can happen, and when. *)
Inductive tick : Type :=
| Invoke (t : Z)                      (* the debounced function is called *)
| TimerFires (id : positive) (t : Z)  (* the platform runs an armed timer *)
| IdleCallback (t : Z).               (* the platform runs an idle callback *)

Definition time_of (e : tick) : Z :=
  match e with
  | Invoke t => t
  | TimerFires _ t => t
  | IdleCallback t => t
  end.

Fixpoint take_timer (id : positive) (l : list (positive * Z))
    : option (Z * list (positive * Z)) :=
  match l with
  | [] => None
  | (i, due) :: r =>
      if Pos.eqb i id then Some (due, r)
      else '(d, r') ← take_timer id r; Some (d, (i, due) :: r')
  end.

(** One tick; [None] when the platform cannot do this (no such timer, a
    timer that is not yet due, no idle callback registered). *)
Definition step (e : tick) (s : state) : option state :=
  match e with
  | Invoke t => Some (debounced t s)
  | TimerFires id t =>
      '(due, rest) ← take_timer id (timers s);
      if due <=? t then Some (later t (set_timers rest s)) else None
  | IdleCallback t =>
      match idle s with
      | O => None
      | S n => Some (run t (set_idle n s))
      end
  end.

(** A schedule: ticks at non-decreasing times, starting at [clock]. *)
Fixpoint simulate (clock : Z) (evs : list tick) (s : state) : option state :=
  match evs with
  | [] => Some s
  | e :: evs =>
      if clock <=? time_of e then
        s ← step e s; simulate (time_of e) evs s
      else None
  end.

End Closure.

(** *** Bursts of invocations *)

Section Burst.

Variable wait : Z.

(** The times of the invocations of a schedule, in order. *)
Fixpoint invocations (evs : list tick) : list Z :=
  match evs with
  | [] => []
  | Invoke t :: evs => t :: invocations evs
  | _ :: evs => invocations evs
  end.

(** Each invocation comes less than [wait] after the previous one. *)
Fixpoint burst_after (previous : option Z) (ts : list Z) : Prop :=
  match ts with
  | [] => True
  | t :: ts =>
      match previous with
      | Some p => t - p < wait
      | None => True
      end ∧ burst_after (Some t) ts
  end.

Definition last_invocation (previous : option Z) (ts : list Z) : option Z :=
  List.last (map Some ts) previous.

(** [phase clock last s]: at time [clock], [last] being the time of the
    latest invocation, the closure state [s] is
    - untouched; or
    - armed: one timer pending, nothing executed yet; or
    - waiting for an idle callback, the quiet period being over; or
    - done: executed once, at least [wait] after the latest invocation. *)
Inductive phase (clock : Z) : option Z → state → Prop :=
| phase_fresh : phase clock None initial
| phase_armed ts id tid due nid :
    ts ≤ clock →
    phase clock (Some ts)
      {| timeout := Some id; timestamp := JS.Num ts;
         timers := [(tid, due)]; idle := 0; next_id := nid;
         executions := [] |}
| phase_idle ts id nid :
    ts + wait ≤ clock →
    phase clock (Some ts)
      {| timeout := Some id; timestamp := JS.Num ts;
         timers := []; idle := 1; next_id := nid;
         executions := [] |}
| phase_done ts t nid :
    ts + wait ≤ t →
    t ≤ clock →
    phase clock (Some ts)
      {| timeout := None; timestamp := JS.Num ts;
         timers := []; idle := 0; next_id := nid;
         executions := [t] |}.

End Burst.

(** [debounce(func)]: what the returned closure keeps of the
    configuration is the constant [wait]. *)
Record closure : Type := { wait : Z }.

Definition debounce (config : Config) : closure :=
  {| wait := resizeDebounce config |}.

End Debounce.

(** ** Module evaluation and [init]

    Statements of the module run in source order when it is imported:
    [let config = { ...defaults }], then the AutoSizer module pattern,
    whose body executes [const debouncedUpdate =
    debounce(updateElementsSizes)].  [init()] runs later, on demand. *)
Record library : Type := {
  config : Config;
  debouncedUpdate : Debounce.closure;
  initialized : bool;
}.

Definition load : library :=
  let config := spread defaults no_overrides in
  let debouncedUpdate := Debounce.debounce config in
  {| config := config; debouncedUpdate := debouncedUpdate;
     initialized := false |}.

(** [init()]: [if (init.initialized) return; init.initialized = true;
    initConfig(); autoSizer.init();] with [window.autoSizesConfig] as
    argument. *)
Definition autoSizes_init (autoSizesConfig : option UserConfig)
    (l : library) : library :=
  if initialized l then l
  else {| config := initConfig autoSizesConfig;
          debouncedUpdate := debouncedUpdate l;
          initialized := true |}.

(** * Vocabulary of the properties *)

(** The resolver in the words of its description: from the current
    width, while the width is below [minSize] and a container exists and
    the element has no cached width, continue from the container's
    rendered width with the container's parent; otherwise the current
    width is the result. *)
Inductive resolves (cfg : Config) (elem : element)
    : node → JS.value → JS.value → Prop :=
| resolves_climb width container_width container_parent result :
    JS.lt width (JS.Num (minSize cfg)) = true →
    JS.truthy (_autosizesWidth elem) = false →
    resolves cfg elem container_parent container_width result →
    resolves cfg elem (Node container_width container_parent) width result
| resolves_stop container width :
    ¬ (JS.lt width (JS.Num (minSize cfg)) = true
       ∧ container ≠ Null
       ∧ JS.truthy (_autosizesWidth elem) = false) →
    resolves cfg elem container width width.

(** The resolver never invents a width: the result is the starting width
    or the rendered width of one of the containers. *)
Fixpoint container_widths (n : node) : list JS.value :=
  match n with
  | Null => []
  | Node w p => w :: container_widths p
  end.

(** The batcher of the page when nothing is pending. *)
Definition idle (s : page) : Prop :=
  running s = false ∧ waiting s = false ∧ queue s = [] ∧ frames s = 0%nat.

(** The element after the "before" event has been dispatched on it. *)
Definition before_dispatched (cfg : Config) (dataAttr : bool)
    (width : JS.value) (elem : element) : element :=
  log_op (DispatchEvent "beforeSizesUpdate"
            (BeforeDetail (getWidth cfg elem (parentNode (dom elem)) width)
               dataAttr))
    elem.

(** What the "before" listeners answer for the resolved width. *)
Definition before_answer (cfg : Config) (on : listeners) (dataAttr : bool)
    (width : JS.value) (elem : element) : detail * bool :=
  on elem "beforeSizesUpdate"
    (BeforeDetail (getWidth cfg elem (parentNode (dom elem)) width) dataAttr).

(** The [setAttribute] calls of [setSizesAttr], in order. *)
Definition attribute_ops (cfg : Config) (value : string) : list dom_op :=
  SetAttribute (sizesAttr cfg) value
  :: (if hasPrefix (sizesAttr cfg)
      then [SetAttribute (getBaseAttr (sizesAttr cfg)) value]
      else []).

(** The operations of one commit, in order; [auto] says whether the size
    attribute read "auto" when the commit ran. *)
Definition commit_ops (cfg : Config) (width : JS.value) (auto : bool)
    : list dom_op :=
  (if auto then attribute_ops cfg (px width) else [])
  ++ (if negb (String.eqb (processedElementClass cfg) "")
      then [ClassListAdd (processedElementClass cfg)] else [])
  ++ [DispatchEvent "afterSizesUpdate" (AfterDetail width (px width))].

(** How many times the attribute [name] was written with
    [setAttribute]. *)
Fixpoint attribute_writes (name : string) (log : list dom_op) : nat :=
  match log with
  | [] => 0%nat
  | SetAttribute n _ :: log =>
      if String.eqb n name then S (attribute_writes name log)
      else attribute_writes name log
  | _ :: log => attribute_writes name log
  end.

(** How many "after" events were dispatched. *)
Fixpoint after_events (log : list dom_op) : nat :=
  match log with
  | [] => 0%nat
  | DispatchEvent name (AfterDetail _ _) :: log => S (after_events log)
  | _ :: log => after_events log
  end.

(** Sample pages and listeners. *)
Module Sample.

Definition container : node := Node (JS.Num 1000) Null.

(** An image of rendered width [w] with [sizes="auto"], not yet sized. *)
Definition img (w : Z) : element :=
  {| dom := Node (JS.Num w) container;
     attributes := {[ "sizes" := "auto" ]};
     classList := ["autosizes"];
     _autosizesWidth := JS.Undefined;
     oplog := [] |}.

Definition fresh (elem : element) : page :=
  {| running := false; waiting := false; queue := []; frames := 0;
     world := elem |}.

(** The window is resized: the image now renders [w] pixels wide. *)
Definition resized (w : Z) (s : page) : page :=
  set_world (relayout (Node (JS.Num w) container) (world s)) s.

(** A listener that calls [preventDefault()]. *)
Definition veto : listeners := λ _ _ d, (d, true).

(** A listener that sets [detail.width = X] on the "before" event. *)
Definition set_width (X : JS.value) : listeners :=
  λ _ _ d,
    match d with
    | BeforeDetail _ dataAttr => (BeforeDetail X dataAttr, false)
    | AfterDetail _ _ => (d, false)
    end.

End Sample.

(** The page after the first update of the sample image (rendered 450
    wide) has been painted, then the window resized so that the image
    renders 600 wide, the element updated again and the frame painted. *)
Definition first_pass (cfg : Config) : option page :=
  paint cfg silent 1
    (getSizeElement cfg silent false JS.Undefined
       (Sample.fresh (Sample.img 450))).

Definition second_pass (cfg : Config) : option page :=
  s1 ← first_pass cfg;
  paint cfg silent 1
    (getSizeElement cfg silent false JS.Undefined (Sample.resized 600 s1)).

(** A configuration without a processed-marker class. *)
Definition no_marker_class : Config :=
  initConfig
    (Some {| u_targetElementClass := None;
             u_processedElementClass := Some "";
             u_sizesAttr := None; u_minSize := None; u_init := None;
             u_resizeDebounce := None |}).

(** A configuration that asks for a 500 ms debounce. *)
Definition slow_resize : UserConfig :=
  {| u_targetElementClass := None; u_processedElementClass := None;
     u_sizesAttr := None; u_minSize := None; u_init := None;
     u_resizeDebounce := Some 500 |}.

(** Two resize notifications 200 ms apart, and the platform's timers
    firing as soon as they are due. *)
Definition two_resizes : list Debounce.tick :=
  [Debounce.Invoke 0; Debounce.TimerFires 1 99;
   Debounce.Invoke 200; Debounce.TimerFires 2 299].

(** The same with [requestIdleCallback], the idle callbacks running at
    once. *)
Definition two_resizes_idle : list Debounce.tick :=
  [Debounce.Invoke 0; Debounce.TimerFires 1 99; Debounce.IdleCallback 99;
   Debounce.Invoke 200; Debounce.TimerFires 2 299; Debounce.IdleCallback 299].

(** A burst of two resize notifications 50 ms apart: the first timer
    finds the quiet period unfinished and is re-armed. *)
Definition short_burst : list Debounce.tick :=
  [Debounce.Invoke 0; Debounce.Invoke 50;
   Debounce.TimerFires 1 99; Debounce.TimerFires 2 149].

(** Several commits on the same element, one after the other (the
    closures of a batch that concern this element). *)
Definition commits (cfg : Config) (on : listeners) (widths : list JS.value)
    (elem : element) : element :=
  fold_left (λ elem width, sizeElement_body cfg on width elem) widths elem.

(** What can happen to the page of one element, one task of the event
    loop at a time: the element is updated (with whatever listeners are
    registered at that moment), the platform runs the pending
    animation-frame callback (nothing happens when none is pending), or
    the layout changes. *)
Inductive action : Type :=
| Update (on : listeners) (dataAttr : bool) (width : JS.value)
| Paint (on : listeners)
| Relayout (n : node).

Definition act (cfg : Config) (a : action) (s : page) : page :=
  match a with
  | Update on dataAttr width => getSizeElement cfg on dataAttr width s
  | Paint on => default s (paint cfg on (length (queue s)) s)
  | Relayout n => set_world (relayout n (world s)) s
  end.

Definition acts (cfg : Config) (l : list action) (s : page) : page :=
  fold_left (λ s a, act cfg a s) l s.

(** Between tasks the queue of the page only holds commits of truthy
    widths. *)
Definition well_queued (s : page) : Prop :=
  running s = false
  ∧ Forall (λ f, ∃ w, f = Do w Return ∧ JS.truthy w = true) (queue s).

(** Runs of the frame batcher: closures are scheduled and, in between,
    the platform invokes the pending animation-frame callback. *)
Section BatcherRuns.

Context {E : Type}.

Inductive raf_event : Type :=
| Sched (f : fn E)
| Frame.

(** The closures scheduled by a run, in order. *)
Fixpoint scheduled (evs : list raf_event) : list (fn E) :=
  match evs with
  | [] => []
  | Sched f :: evs => f :: scheduled evs
  | Frame :: evs => scheduled evs
  end.

End BatcherRuns.

Arguments raf_event : clear implicits.

(** The bookkeeping of the closure: what is pending, and how many
    executions there can have been after [n] invocations. *)
Definition accounted (s : Debounce.state) (n : nat) : Prop :=
  (length (Debounce.executions s) + length (Debounce.timers s)
   + Debounce.idle s ≤ n)%nat
  ∧ (length (Debounce.timers s) + Debounce.idle s ≤ 1)%nat
  ∧ (Debounce.timeout s = None
     ↔ Debounce.timers s = [] ∧ Debounce.idle s = 0%nat).

(** Without [requestIdleCallback]: the timestamp is the time of the
    latest invocation, and no timer exists before the first one. *)
Definition stamped (s : Debounce.state) (latest : option Z) : Prop :=
  Debounce.idle s = 0%nat
  ∧ Debounce.timestamp s = match latest with
                           | Some t => JS.Num t
                           | None => JS.Undefined
                           end
  ∧ (latest = None → Debounce.timers s = []).

(** ** The AutoSizer over the document

    The document is the list of its elements, in document order; an
    element is referred to by its position.  The closure that
    [sizeElement] hands to [rAF] has captured the element and the
    width. *)
Module Collection.

Abbreviation document := (state (nat * JS.value) (list element)).

(** The function wrapped by [rAFIt], for the captured element. *)
Definition sizeElement_body (cfg : Config) (on : listeners)
    (args : nat * JS.value) (doc : list element) : list element :=
  alter (sizeElement_body cfg on args.2) args.1 doc.

Definition sizeElement (cfg : Config) (on : listeners) (elem : nat)
    (width : JS.value) (s : document) : document :=
  rAF (sizeElement_body cfg on) (Do (elem, width) Return) s.

(** [getSizeElement(elem, dataAttr, width)] for the element at position
    [elem]; a position outside the document refers to no element. *)
Definition getSizeElement (cfg : Config) (on : listeners) (elem : nat)
    (dataAttr : bool) (width : JS.value) (s : document) : document :=
  match world s !! elem with
  | None => s
  | Some e =>
      let parent := parentNode (dom e) in
      match parent with
      | Null => s
      | Node _ _ =>
          let width := getWidth cfg e parent width in
          let '(event, e) :=
            triggerEvent on e "beforeSizesUpdate"
              (BeforeDetail width dataAttr) in
          let s := set_world (<[elem := e]> (world s)) s in
          if defaultPrevented event then s
          else
            let width := detail_width (ev_detail event) in
            if JS.truthy width
               && negb (JS.strict_eq width (_autosizesWidth e))
            then sizeElement cfg on elem width s
            else s
      end
  end.

(** A closure of the single-element page, for the element at position
    [elem] of the document. *)
Fixpoint tag (elem : nat) (f : fn JS.value) : fn (nat * JS.value) :=
  match f with
  | Return => Return
  | Do width rest => Do (elem, width) (tag elem rest)
  | Schedule g rest => Schedule (tag elem g) (tag elem rest)
  end.

End Collection.

(** ** The configuration objects

    [let config = { ...defaults }] creates an object and binds [config]
    to it; [initConfig] creates another object and rebinds [config];
    the functions of the module read the properties of whatever object
    [config] is bound to at the time of the call.  The public object
    [autoSizes] is built once, with [cfg: config], and so keeps a
    reference to the object [config] was bound to at that moment.
    Objects are kept in the order of their creation and referred to by
    position. *)
Module Loader.

Record env : Type := {
  objects : list Config;   (* the configuration objects created so far *)
  config : nat;            (* the object the binding [config] refers to *)
  cfg : nat;               (* the object [autoSizes.cfg] refers to *)
  wait : Z;                (* the constant of the debounced update *)
  initialized : bool;      (* [init.initialized] *)
}.

(** Evaluation of the module. *)
Definition load : env :=
  let o := spread defaults no_overrides in
  {| objects := [o]; config := 0; cfg := 0;
     wait := Debounce.wait (Debounce.debounce o);
     initialized := false |}.

(** [initConfig()], [window.autoSizesConfig] being [autoSizesConfig]. *)
Definition initConfig (autoSizesConfig : option UserConfig) (e : env) : env :=
  let userConfig := default no_overrides autoSizesConfig in
  {| objects := objects e ++ [spread defaults userConfig];
     config := length (objects e);
     cfg := cfg e; wait := wait e; initialized := initialized e |}.

(** [init()] *)
Definition autoSizes_init (autoSizesConfig : option UserConfig) (e : env)
    : env :=
  if initialized e then e
  else
    initConfig autoSizesConfig
      {| objects := objects e; config := config e; cfg := cfg e;
         wait := wait e; initialized := true |}.

(** What a function of the module reads as [config]. *)
Definition config_in_use (e : env) : option Config :=
  objects e !! config e.

(** What a user reads as [autoSizes.cfg]. *)
Definition public_cfg (e : env) : option Config :=
  objects e !! cfg e.

(** Assignments to properties of [autoSizes.cfg] by a user of the
    library, [update] being their effect on the object. *)
Definition assign (update : Config → Config) (e : env) : env :=
  {| objects := alter update (cfg e) (objects e);
     config := config e; cfg := cfg e; wait := wait e;
     initialized := initialized e |}.

(** The entry point: the module is imported, and
    [if (autoSizes.cfg.init !== false)] the library is initialised, at
    once or, while the document is loading, by a listener for
    [DOMContentLoaded].  The second component says whether that listener
    was registered. *)
Definition entry (autoSizesConfig : option UserConfig) (loading : bool)
    : env * bool :=
  let e := load in
  if negb (bool_decide (init <$> public_cfg e = Some false)) then
    if loading then (e, true)
    else (autoSizes_init autoSizesConfig e, false)
  else (e, false).

(** [DOMContentLoaded] is dispatched. *)
Definition dom_ready (autoSizesConfig : option UserConfig)
    (st : env * bool) : env :=
  if st.2 then autoSizes_init autoSizesConfig st.1 else st.1.

End Loader.

(** The view of the environment that ignores the identity of objects. *)
Definition library_of (e : Loader.env) : option library :=
  c ← Loader.config_in_use e;
  Some {| config := c;
          debouncedUpdate := {| Debounce.wait := Loader.wait e |};
          initialized := Loader.initialized e |}.

(** ** The commit of version 1.0.0

    The first version of [sizeElement] in the file writes [sizes]
    unconditionally and, when the parent is a [picture] element, on the
    parent's [source] elements as well.  Of the parent it reads
    [nodeName] and the [source] elements below it, of which only the
    attributes matter. *)
Module V100.

Record container : Type := {
  nodeName : option string;
  sources : list (gmap string string);
}.

Definition lower (c : ascii) : ascii :=
  let n := nat_of_ascii c in
  if (65 <=? n)%nat && (n <=? 90)%nat then ascii_of_nat (n + 32) else c.

Fixpoint lowercase (s : string) : string :=
  match s with
  | EmptyString => EmptyString
  | String c s => String (lower c) (lowercase s)
  end.

(** [regPicture.test(name)] with [regPicture = /^picture$/i]. *)
Definition regPicture_test (name : string) : bool :=
  String.eqb (lowercase name) "picture".

(** The function wrapped by [rAFIt]: [elem] and [parent] are the first
    two arguments of the closure. *)
Definition sizeElement_body (on : listeners) (width : JS.value)
    (args : element * container) : element * container :=
  let '(elem, parent) := args in
  let elem := set_autosizesWidth width elem in
  let widthPx := px width in
  let elem := setAttribute "sizes" widthPx elem in
  let parent :=
    if regPicture_test (default EmptyString (nodeName parent)) then
      {| nodeName := nodeName parent;
         sources := (λ source, <["sizes" := widthPx]> source)
                    <$> sources parent |}
    else parent in
  ((triggerEvent on elem "afterCalculateSizes"
      (AfterDetail width widthPx)).2,
   parent).

(** Several commits, one after the other. *)
Definition commits (on : listeners) (widths : list JS.value)
    (args : element * container) : element * container :=
  fold_left (λ args width, sizeElement_body on width args) widths args.

End V100.

(** ** Frame Batcher: closures that throw

    [run] calls the closures of the queue without [try]: when a closure
    throws, the exception leaves the [while] loop and [run], the
    assignment [running = false] is not reached, and the closures behind
    it stay in the queue.  Here the meaning of an effect is an [outcome]:
    the world it leaves, and whether it returned or threw.  Closures,
    state and the [else] branch of [rAF] are those of [FrameBatcher],
    which is the batcher of the closures that return. *)
Inductive outcome (A : Type) : Type :=
| Returned (a : A)
| Threw (a : A).

Arguments Returned {A} a.
Arguments Threw {A} a.

(** The state in which a call ended, one way or the other. *)
Definition reached {A : Type} (o : outcome A) : A :=
  match o with
  | Returned a => a
  | Threw a => a
  end.

Module Throwing.
Section Batcher.

Context {E W : Type}.
Variable perform : E → W → outcome W.

(** The outcome of a call that acted on the world only. *)
Definition with_world (s : state E W) (o : outcome W) : outcome (state E W) :=
  match o with
  | Returned w => Returned (set_world w s)
  | Threw w => Threw (set_world w s)
  end.

(** [fn()]: a statement that throws ends the call, and with it the call
    of every closure around it. *)
Fixpoint call (f : fn E) (s : state E W) : outcome (state E W) :=
  match f with
  | Return => Returned s
  | Do e rest =>
      match perform e (world s) with
      | Returned w => call rest (set_world w s)
      | Threw w => Threw (set_world w s)
      end
  | Schedule g rest =>
      if running s then
        match call g s with
        | Returned s => call rest s
        | Threw s => Threw s
        end
      else call rest (enqueue g s)
  end.

(** The function returned by the module pattern. *)
Definition rAF (f : fn E) (s : state E W) : outcome (state E W) :=
  if running s then call f s else Returned (enqueue f s).

(** [while (queue.length) { const fn = queue.shift(); fn(); }]: the
    closure has left the queue when it is called. *)
Fixpoint run_while (fuel : nat) (s : state E W)
    : option (outcome (state E W)) :=
  match queue s with
  | [] => Some (Returned s)
  | f :: rest =>
      match fuel with
      | O => None
      | S fuel =>
          match call f (set_queue rest s) with
          | Returned s => run_while fuel s
          | Threw s => Some (Threw s)
          end
      end
  end.

(** [running = true; waiting = false; while ...; running = false;] *)
Definition run (fuel : nat) (s : state E W) : option (outcome (state E W)) :=
  let s := set_running true s in
  let s := set_waiting false s in
  o ← run_while fuel s;
  Some match o with
       | Returned s => Returned (set_running false s)
       | Threw s => Threw s
       end.

(** The platform invokes one pending animation-frame callback; an
    exception that leaves it is reported and goes no further. *)
Definition frame (fuel : nat) (s : state E W)
    : option (outcome (state E W)) :=
  match frames s with
  | O => None
  | S n =>
      run fuel {| running := running s; waiting := waiting s;
                  queue := queue s; frames := n; world := world s |}
  end.

(** Effects performed one after the other, up to the first that
    throws. *)
Fixpoint perform_all (es : list E) (w : W) : outcome W :=
  match es with
  | [] => Returned w
  | e :: es =>
      match perform e w with
      | Returned w => perform_all es w
      | Threw w => Threw w
      end
  end.

(** Scheduling a list of closures one after the other in one
    synchronous pass, which ends when a call of [rAF] throws. *)
Fixpoint schedule_all (fs : list (fn E)) (s : state E W)
    : outcome (state E W) :=
  match fs with
  | [] => Returned s
  | f :: fs =>
      match rAF f s with
      | Returned s => schedule_all fs s
      | Threw s => Threw s
      end
  end.

(** The closures of a queue executed inside a batch, in order, up to the
    first that throws: the world that is left, and the closures that
    have not been called. *)
Fixpoint drain (q : list (fn E)) (w : W) : outcome W * list (fn E) :=
  match q with
  | [] => (Returned w, [])
  | f :: q =>
      match perform_all (effects f) w with
      | Returned w => drain q w
      | Threw w => (Threw w, q)
      end
  end.

(** A run of the batcher, up to the first exception. *)
Fixpoint play (evs : list (raf_event E)) (s : state E W)
    : option (outcome (state E W)) :=
  match evs with
  | [] => Some (Returned s)
  | Sched f :: evs =>
      match rAF f s with
      | Returned s => play evs s
      | Threw s => Some (Threw s)
      end
  | Frame :: evs =>
      match frame (length (queue s)) s with
      | Some (Returned s) => play evs s
      | Some (Threw s) => Some (Threw s)
      | None => None
      end
  end.

End Batcher.
End Throwing.

(** An effect on a list of numbers: the number is appended to the list,
    except 0, which throws. *)
Definition append_or_throw (e : nat) (w : list nat) : outcome (list nat) :=
  match e with
  | O => Threw w
  | S _ => Returned (w ++ [e])
  end.

(** ** Calls that the DOM carries out as written

    [setAttribute] and [getAttribute] take the attribute name as it is
    and [classList_add] takes any class name.  The DOM of an HTML
    document does so for the names described here.  For other names it
    differs: attribute names are compared regardless of case, a name the
    DOM does not hold valid (the empty name, for one) or a class name
    with white space makes the call throw, which ends the commit, and a
    write to [class] replaces the class list.  Likewise [JS.to_string]
    is the template literal for [undefined], [NaN] and the integers that
    JavaScript prints by their decimal digits. *)
Definition lower_case_letter (c : ascii) : bool :=
  let n := nat_of_ascii c in (97 <=? n)%nat && (n <=? 122)%nat.

Definition decimal_digit (c : ascii) : bool :=
  let n := nat_of_ascii c in (48 <=? n)%nat && (n <=? 57)%nat.

Fixpoint name_characters (s : string) : bool :=
  match s with
  | EmptyString => true
  | String c s =>
      (lower_case_letter c || decimal_digit c || Ascii.eqb c "-")
      && name_characters s
  end.

(** A lower-case letter followed by lower-case letters, digits and
    hyphens, and not [class]. *)
Definition plain_name (s : string) : bool :=
  match s with
  | EmptyString => false
  | String c rest => lower_case_letter c && name_characters rest
  end
  && negb (String.eqb s "class").

(** Tab, line feed, form feed, carriage return and space. *)
Definition white_space (c : ascii) : bool :=
  let n := nat_of_ascii c in
  (n =? 9)%nat || (n =? 10)%nat || (n =? 12)%nat || (n =? 13)%nat
  || (n =? 32)%nat.

Fixpoint no_white_space (s : string) : bool :=
  match s with
  | EmptyString => true
  | String c s => negb (white_space c) && no_white_space s
  end.

(** The names of the configuration are such that every call of a commit
    is carried out as written. *)
Definition well_configured (cfg : Config) : bool :=
  plain_name (sizesAttr cfg)
  && (if hasPrefix (sizesAttr cfg)
      then plain_name (getBaseAttr (sizesAttr cfg)) else true)
  && no_white_space (processedElementClass cfg).

(** [undefined], [NaN], or an integer of the range in which every
    integer is a number of its own, printed by its digits
    ([Number.MAX_SAFE_INTEGER] is 9007199254740991). *)
Definition plain_width (v : JS.value) : bool :=
  match v with
  | JS.Num n => Z.abs n <=? 9007199254740991
  | _ => true
  end.

(** ** Samples with a prefixed size attribute *)

(** The configuration with [sizesAttr: 'data-sizes']. *)
Definition data_sizes : Config :=
  initConfig
    (Some {| u_targetElementClass := None; u_processedElementClass := None;
             u_sizesAttr := Some "data-sizes"; u_minSize := None;
             u_init := None; u_resizeDebounce := None |}).

(** An image of rendered width [w] with [data-sizes="auto"], not yet
    sized. *)
Definition data_img (w : Z) : element :=
  {| dom := Node (JS.Num w) Sample.container;
     attributes := {[ "data-sizes" := "auto" ]};
     classList := ["autosizes"];
     _autosizesWidth := JS.Undefined;
     oplog := [] |}.

(** The pass of [first_pass] for any element: the element is updated
    and the animation frame painted. *)
Definition first_pass_of (cfg : Config) (elem : element) : option page :=
  paint cfg silent 1
    (getSizeElement cfg silent false JS.Undefined (Sample.fresh elem)).

(** An image of rendered width [w] whose author wrote [sizes="100vw"]. *)
Definition authored_img (w : Z) : element :=
  {| dom := Node (JS.Num w) Sample.container;
     attributes := {[ "sizes" := "100vw" ]};
     classList := ["autosizes"];
     _autosizesWidth := JS.Undefined;
     oplog := [] |}.

(** What is visible of the size attributes of a page: the cached width,
    the attributes [data-sizes] and [sizes], the number of times each
    has been written, and the number of "after" events. *)
Definition size_state (s : page)
    : JS.value * option string * option string * nat * nat * nat :=
  (_autosizesWidth (world s),
   attributes (world s) !! "data-sizes",
   attributes (world s) !! "sizes",
   attribute_writes "data-sizes" (oplog (world s)),
   attribute_writes "sizes" (oplog (world s)),
   after_events (oplog (world s))).

(** Attribute names of an HTML element are compared regardless of
    case. *)
Definition same_attribute (a b : string) : bool :=
  String.eqb (V100.lowercase a) (V100.lowercase b).

(** ** The commit on the DOM

    The calls of a commit as the DOM of an HTML document carries them
    out, for every name.  [elem.setAttribute(name, value)] throws on a
    name that is not valid; otherwise it writes the attribute of the
    lower-cased name, and a write to [class] replaces the class list by
    the tokens of the value.  [elem.getAttribute(name)] reads the
    attribute of the lower-cased name.  [elem.classList.add(cls)] throws
    on the empty string and on a class name with white space; otherwise
    it adds the class unless the list has it, and sets the [class]
    attribute to the classes joined by spaces.  The [classList] of an
    element is the list of the tokens of its [class] attribute.  Which
    names are valid is the platform's rule, [valid_name].  An exception
    ends the commit. *)
Module Dom.

(** The parts of [s] between the characters that satisfy [sep]. *)
Fixpoint split_on (sep : ascii → bool) (s : string) : list string :=
  match s with
  | EmptyString => [EmptyString]
  | String c r =>
      if sep c then EmptyString :: split_on sep r
      else match split_on sep r with
           | h :: t => String c h :: t
           | [] => [String c EmptyString]
           end
  end.

(** The tokens of a [class] attribute: the parts between white space, in
    order, each one once. *)
Definition tokens (value : string) : list string :=
  fold_left (λ seen t, if bool_decide (t = "" ∨ t ∈ seen) then seen
                       else seen ++ [t])
    (split_on white_space value) [].

Section Platform.

Variable valid_name : string → bool.

Definition getAttribute (elem : element) (name : string) : option string :=
  attributes elem !! V100.lowercase name.

Definition setAttribute (name value : string) (elem : element)
    : outcome element :=
  if valid_name name then
    let name := V100.lowercase name in
    Returned
      (log_op (SetAttribute name value)
         {| dom := dom elem;
            attributes := <[name := value]> (attributes elem);
            classList := if String.eqb name "class" then tokens value
                         else classList elem;
            _autosizesWidth := _autosizesWidth elem;
            oplog := oplog elem |})
  else Threw elem.

Definition classList_add (cls : string) (elem : element) : outcome element :=
  if String.eqb cls "" || negb (no_white_space cls) then Threw elem
  else
    let classes := if decide (cls ∈ classList elem) then classList elem
                   else classList elem ++ [cls] in
    Returned
      (log_op (ClassListAdd cls)
         {| dom := dom elem;
            attributes := <["class" := String.concat " " classes]>
                            (attributes elem);
            classList := classes;
            _autosizesWidth := _autosizesWidth elem;
            oplog := oplog elem |}).

Definition hasSizesAuto (cfg : Config) (elem : element) : bool :=
  let value := getAttribute elem (sizesAttr cfg) in
  bool_decide (value = Some "auto").

(** The rest of a function body after a call that may have thrown. *)
Definition then_ (o : outcome element) (rest : element → outcome element)
    : outcome element :=
  match o with
  | Returned elem => rest elem
  | Threw elem => Threw elem
  end.

Definition setSizesAttr (cfg : Config) (sizesValue : string)
    (elem : element) : outcome element :=
  then_ (setAttribute (sizesAttr cfg) sizesValue elem) (λ elem,
    if hasPrefix (sizesAttr cfg) then
      let baseAttr := getBaseAttr (sizesAttr cfg) in
      setAttribute baseAttr sizesValue elem
    else Returned elem).

(** The function wrapped by [rAFIt] to make [sizeElement]. *)
Definition sizeElement_body (cfg : Config) (on : listeners)
    (width : JS.value) (elem : element) : outcome element :=
  let elem := set_autosizesWidth width elem in
  let widthPx := px width in
  then_ (if hasSizesAuto cfg elem then setSizesAttr cfg widthPx elem
         else Returned elem) (λ elem,
  then_ (if negb (String.eqb (processedElementClass cfg) "")
         then classList_add (processedElementClass cfg) elem
         else Returned elem) (λ elem,
  Returned
    (snd (triggerEvent on elem "afterSizesUpdate"
            (AfterDetail width widthPx))))).

End Platform.
End Dom.

(** A configuration whose processed-marker class has a space. *)
Definition spaced_marker : Config :=
  initConfig
    (Some {| u_targetElementClass := None;
             u_processedElementClass := Some "auto sized";
             u_sizesAttr := None; u_minSize := None; u_init := None;
             u_resizeDebounce := None |}).

(** ** The pass over the live collection

    [document.getElementsByClassName(names)] returns a live collection:
    its length and its items are read off the document as it is at the
    moment of the access.  Its elements are those that carry every class
    named in [names] (the tokens between white space; none at all when
    there is no token), compared regardless of case in a document in
    quirks mode.  What changes the collection during a pass is a
    listener, so the listeners of this part ([handlers]) act on the
    document: for the
    document, the position of the target, the event name and the
    [detail], they say what becomes of the element at each position, and
    leave the [detail] and the veto.  They do not insert, remove or move
    elements.  The commit is the one of [Dom] and the batcher the one of
    [Throwing]. *)
Module Live.

Definition handlers : Type :=
  list element → nat → string → detail
  → (nat → element → element) * detail * bool.

(** Listeners that leave the document as it is: those of [listeners]
    above, registered on the elements. *)
Definition lift (on : listeners) : handlers :=
  λ doc elem name d,
    match doc !! elem with
    | Some e => let '(d', prevented) := on e name d in
                (λ _ e, e, d', prevented)
    | None => (λ _ e, e, d, false)
    end.

Definition triggerEvent (on : handlers) (doc : list element) (elem : nat)
    (name : string) (d : detail) : event * list element :=
  let '(change, d', prevented) := on doc elem name d in
  ({| ev_detail := d'; defaultPrevented := prevented |},
   imap change (alter (log_op (DispatchEvent name d)) elem doc)).

Section Platform.

Variable valid_name : string → bool.
Variable quirks : bool.

(** The function wrapped by [rAFIt], for the captured element. *)
Definition sizeElement_body (cfg : Config) (on : handlers)
    (args : nat * JS.value) (doc : list element) : outcome (list element) :=
  let '(elem, width) := args in
  match doc !! elem with
  | None => Returned doc
  | Some e =>
      let e := set_autosizesWidth width e in
      let widthPx := px width in
      match (if Dom.hasSizesAuto cfg e
             then Dom.setSizesAttr valid_name cfg widthPx e
             else Returned e) with
      | Threw e => Threw (<[elem := e]> doc)
      | Returned e =>
          match (if negb (String.eqb (processedElementClass cfg) "")
                 then Dom.classList_add (processedElementClass cfg) e
                 else Returned e) with
          | Threw e => Threw (<[elem := e]> doc)
          | Returned e =>
              Returned
                (snd (triggerEvent on (<[elem := e]> doc) elem
                        "afterSizesUpdate" (AfterDetail width widthPx)))
          end
      end
  end.

Definition sizeElement (cfg : Config) (on : handlers) (elem : nat)
    (width : JS.value) (s : Collection.document)
    : outcome Collection.document :=
  Throwing.rAF (sizeElement_body cfg on) (Do (elem, width) Return) s.

(** [getSizeElement(elem, dataAttr, width)] for the element at position
    [elem]; [elem._autosizesWidth] is read after the dispatch. *)
Definition getSizeElement (cfg : Config) (on : handlers) (elem : nat)
    (dataAttr : bool) (width : JS.value) (s : Collection.document)
    : outcome Collection.document :=
  match world s !! elem with
  | None => Returned s
  | Some e =>
      let parent := parentNode (dom e) in
      match parent with
      | Null => Returned s
      | Node _ _ =>
          let width := getWidth cfg e parent width in
          let '(event, doc) :=
            triggerEvent on (world s) elem "beforeSizesUpdate"
              (BeforeDetail width dataAttr) in
          let s := set_world doc s in
          if defaultPrevented event then Returned s
          else
            let width := detail_width (ev_detail event) in
            match doc !! elem with
            | None => Returned s
            | Some e =>
                if JS.truthy width
                   && negb (JS.strict_eq width (_autosizesWidth e))
                then sizeElement cfg on elem width s
                else Returned s
            end
      end
  end.

Definition same_class (a b : string) : bool :=
  if quirks then String.eqb (V100.lowercase a) (V100.lowercase b)
  else String.eqb a b.

(** The element is one of [getElementsByClassName(names)]. *)
Definition has_classes (names : string) (e : element) : bool :=
  let classes := Dom.tokens names in
  negb (bool_decide (classes = []))
  && forallb (λ c, existsb (same_class c) (classList e)) classes.

(** [document.getElementsByClassName(names)], evaluated on the document
    as it is: the positions of its elements, in document order. *)
Fixpoint getElementsByClassName_from (names : string) (i : nat)
    (doc : list element) : list nat :=
  match doc with
  | [] => []
  | e :: doc =>
      if has_classes names e
      then i :: getElementsByClassName_from names (S i) doc
      else getElementsByClassName_from names (S i) doc
  end.

Definition getElementsByClassName (names : string) (doc : list element)
    : list nat :=
  getElementsByClassName_from names 0 doc.

(** [for (let i = 0; i < elements.length; i++)
    getSizeElement(elements[i]);] from [i] on, for a collection created
    with [names].  The collection is read at every iteration;
    [elements !! i] is [None] exactly when [i < elements.length] fails.
    [fuel] bounds the number of iterations that are left; [None] means
    that the loop has not finished within the bound. *)
Fixpoint updateElementsSizes_for (cfg : Config) (on : handlers)
    (names : string) (fuel i : nat) (s : Collection.document)
    : option (outcome Collection.document) :=
  let elements := getElementsByClassName names (world s) in
  match elements !! i with
  | None => Some (Returned s)
  | Some elem =>
      match fuel with
      | O => None
      | S fuel =>
          match getSizeElement cfg on elem false JS.Undefined s with
          | Returned s => updateElementsSizes_for cfg on names fuel (S i) s
          | Threw s => Some (Threw s)
          end
      end
  end.

(** [updateElementsSizes]; [elements] is [None] before [init] has
    assigned the collection, and otherwise the names it was created
    with. *)
Definition updateElementsSizes (cfg : Config) (on : handlers)
    (elements : option string) (fuel : nat) (s : Collection.document)
    : option (outcome Collection.document) :=
  match elements with
  | None => Some (Returned s)
  | Some names =>
      if (length (getElementsByClassName names (world s)) =? 0)%nat
      then Some (Returned s)
      else updateElementsSizes_for cfg on names fuel 0 s
  end.

End Platform.

(** A listener of the "before" event that takes the class [cls] off the
    element that is being updated. *)
Definition drop_class (cls : string) : handlers :=
  λ doc elem name d,
    (λ i e,
       if (i =? elem)%nat && String.eqb name "beforeSizesUpdate" then
         let classes := filter (λ c, c ≠ cls) (classList e) in
         {| dom := dom e;
            attributes := <["class" := String.concat " " classes]>
                            (attributes e);
            classList := classes;
            _autosizesWidth := _autosizesWidth e;
            oplog := oplog e |}
       else e,
     d, false).

End Live.

(** The closures that a pass over the elements [doc], the first of which
    is at position [i], leaves in the queue when the listeners leave the
    document as it is: for each element of the collection, what its
    update on a page of its own queues. *)
Fixpoint pass_closures (quirks : bool) (cfg : Config) (on : listeners)
    (names : string) (i : nat) (doc : list element)
    : list (fn (nat * JS.value)) :=
  match doc with
  | [] => []
  | e :: doc =>
      (if Live.has_classes quirks names e
       then map (Collection.tag i)
              (queue (getSizeElement cfg on false JS.Undefined
                        (Sample.fresh e)))
       else [])
      ++ pass_closures quirks cfg on names (S i) doc
  end.

(** * Properties *)

(** ** Width Resolver *)

Lemma getWidth_while_resolves cfg elem parent width :
  resolves cfg elem parent width (getWidth_while cfg elem parent width).
Proof.
  revert width.
  induction parent as [|pw pp IH]; intros width; simpl.
  - destruct (JS.lt width _); apply resolves_stop; intros (_ & H & _);
      by apply H.
  - destruct (JS.lt width _) eqn:Hlt.
    + destruct (JS.truthy (_autosizesWidth elem)) eqn:Hc; simpl.
      * apply resolves_stop. intros (_ & _ & H). congruence.
      * by apply resolves_climb.
    + apply resolves_stop. intros (H & _). congruence.
Qed.




(** ** Frame Batcher *)

Section BatcherFacts.

Context {E W : Type}.
Variable perform : E → W → W.

Local Abbreviation call := (FrameBatcher.call perform).
Local Abbreviation rAF := (FrameBatcher.rAF perform).
Local Abbreviation run_while := (FrameBatcher.run_while perform).
Local Abbreviation perform_all := (FrameBatcher.perform_all perform).
Local Abbreviation schedule_all := (FrameBatcher.schedule_all perform).

Lemma perform_all_app (es1 es2 : list E) (w : W) :
  perform_all (es1 ++ es2) w = perform_all es2 (perform_all es1 w).
Proof. apply fold_left_app. Qed.

(** Inside a batch a closure only acts on the world: every nested
    [rAF] call is executed on the spot, and the queue is left alone. *)
Lemma call_while_running (f : fn E) (s : state E W) :
  running s = true →
  call f s = set_world (perform_all (effects f) (world s)) s.
Proof.
  revert s.
  induction f as [|e rest IH|g IHg rest IHrest]; intros s Hrun; simpl.
  - by destruct s.
  - rewrite IH by done. by destruct s.
  - rewrite Hrun, (IHg s Hrun), IHrest by done.
    rewrite perform_all_app. by destruct s.
Qed.

Lemma run_while_drains (q : list (fn E)) (s : state E W) :
  running s = true →
  queue s = q →
  run_while (length q) s
  = Some (set_queue []
            (set_world (perform_all (concat (map effects q)) (world s)) s)).
Proof.
  revert s.
  induction q as [|f q IH]; intros s Hrun Hq; simpl; rewrite Hq.
  - destruct s; simpl in *; by subst.
  - rewrite call_while_running by done.
    rewrite IH by done. simpl.
    by rewrite perform_all_app.
Qed.

Lemma schedule_all_cons (f : fn E) (fs : list (fn E)) (s : state E W) :
  schedule_all (f :: fs) s = schedule_all fs (rAF f s).
Proof. reflexivity. Qed.

(** Outside a batch, [rAF] only appends to the queue, and asks for an
    animation frame unless one is already awaited. *)
Lemma schedule_all_idle (fs : list (fn E)) (s : state E W) :
  running s = false →
  schedule_all fs s
  = {| running := false;
       waiting := waiting s || negb (bool_decide (fs = []));
       queue := queue s ++ fs;
       frames := if waiting s || bool_decide (fs = []) then frames s
                 else S (frames s);
       world := world s |}.
Proof.
  revert s.
  induction fs as [|f fs IH]; intros s Hrun.
  - simpl. rewrite app_nil_r, orb_false_r, orb_true_r.
    by destruct s; simpl in *; subst.
  - rewrite schedule_all_cons.
    destruct s as [r w q n wd]; simpl in Hrun; subst r.
    unfold FrameBatcher.rAF, enqueue; simpl.
    destruct w; simpl; rewrite IH by done; simpl;
      by rewrite <- ?app_assoc.
Qed.

End BatcherFacts.


(** ** Attribute names: the part after the last hyphen *)

Section SplitFacts.

Variable c : ascii.

Lemma split_not_nil (s : string) : JS.split c s ≠ [].
Proof.
  destruct s as [|d r]; simpl; [done|].
  destruct (Ascii.eqb d c); [done|]. by destruct (JS.split c r).
Qed.

Lemma last_cons_not_nil {A} (x d : A) (l : list A) :
  l ≠ [] → List.last (x :: l) d = List.last l d.
Proof. by destruct l. Qed.

Lemma split_without_separator (s : string) :
  JS.includes c s = false → JS.split c s = [s].
Proof.
  induction s as [|d r IH]; simpl; [done|].
  destruct (Ascii.eqb d c); [done|].
  intros H. by rewrite IH.
Qed.

Lemma split_with_separator (s : string) :
  JS.includes c s = true → ∃ h1 h2 t, JS.split c s = h1 :: h2 :: t.
Proof.
  induction s as [|d r IH]; simpl; [done|].
  destruct (Ascii.eqb d c).
  - intros _. pose proof (split_not_nil r) as Hne.
    destruct (JS.split c r) as [|h t]; [done|]. eauto.
  - intros H. destruct (IH H) as (h1 & h2 & t & ->). eauto.
Qed.

(** The last part of a split contains no separator. *)
Lemma last_split_no_separator (s : string) :
  JS.includes c (List.last (JS.split c s) EmptyString) = false.
Proof.
  induction s as [|d r IH]; simpl; [done|].
  destruct (Ascii.eqb d c) eqn:Hd.
  - by rewrite last_cons_not_nil by apply split_not_nil.
  - pose proof (split_not_nil r) as Hne.
    destruct (JS.split c r) as [|h [|h2 t]]; [done| |done].
    simpl in *. by rewrite Hd.
Qed.

(** With a separator in the string, the string ends with the separator
    followed by the last part. *)
Lemma last_split_is_suffix (s : string) :
  JS.includes c s = true →
  ∃ prefix, s = prefix +:+ String c (List.last (JS.split c s) EmptyString).
Proof.
  induction s as [|d r IH]; simpl; [done|].
  destruct (Ascii.eqb d c) eqn:Hd.
  - intros _. apply Ascii.eqb_eq in Hd as ->.
    rewrite last_cons_not_nil by apply split_not_nil.
    destruct (JS.includes c r) eqn:Hr.
    + destruct (IH eq_refl) as [p Hp]. exists (String c p).
      by rewrite Hp at 1.
    + exists EmptyString. by rewrite split_without_separator.
  - intros H. destruct (IH H) as [p Hp].
    destruct (split_with_separator r H) as (h1 & h2 & t & Hs).
    rewrite Hs in Hp |- *. exists (String d p).
    by rewrite Hp at 1.
Qed.

End SplitFacts.

Lemma hasPrefix_spec (attr : string) :
  hasPrefix attr = true ↔ JS.includes "-" attr = true ∧ attr ≠ "sizes".
Proof.
  unfold hasPrefix. rewrite andb_true_iff, negb_true_iff.
  by rewrite <- not_true_iff_false, String.eqb_eq.
Qed.

(** ** The commit: what [sizeElement]'s body leaves on the element *)

Lemma triggerEvent_elem on elem name d :
  (triggerEvent on elem name d).2 = log_op (DispatchEvent name d) elem.
Proof. unfold triggerEvent. by destruct (on elem name d). Qed.

Lemma sizeElement_body_cache cfg on width elem :
  _autosizesWidth (sizeElement_body cfg on width elem) = width.
Proof.
  unfold sizeElement_body. rewrite triggerEvent_elem. simpl.
  destruct (negb _); simpl; destruct (hasSizesAuto _ _); simpl; try done;
    unfold setSizesAttr; by destruct (hasPrefix _).
Qed.

Lemma sizeElement_body_dom cfg on width elem :
  dom (sizeElement_body cfg on width elem) = dom elem.
Proof.
  unfold sizeElement_body. rewrite triggerEvent_elem. simpl.
  destruct (negb _); simpl; destruct (hasSizesAuto _ _); simpl; try done;
    unfold setSizesAttr; by destruct (hasPrefix _).
Qed.

Lemma sizeElement_body_attributes cfg on width elem :
  attributes (sizeElement_body cfg on width elem)
  = if hasSizesAuto cfg elem
    then attributes (setSizesAttr cfg (px width) elem)
    else attributes elem.
Proof.
  unfold sizeElement_body. rewrite triggerEvent_elem. simpl.
  change (hasSizesAuto cfg (set_autosizesWidth width elem))
    with (hasSizesAuto cfg elem).
  destruct (negb _); simpl; destruct (hasSizesAuto _ _); simpl; try done;
    unfold setSizesAttr; by destruct (hasPrefix _).
Qed.

Lemma setSizesAttr_lookup cfg value elem :
  attributes (setSizesAttr cfg value elem) !! sizesAttr cfg = Some value.
Proof.
  unfold setSizesAttr. destruct (hasPrefix (sizesAttr cfg)); simpl.
  - destruct (decide (getBaseAttr (sizesAttr cfg) = sizesAttr cfg)) as [->|Hne].
    + apply lookup_insert_eq.
    + rewrite lookup_insert_ne by done. apply lookup_insert_eq.
  - apply lookup_insert_eq.
Qed.

Lemma setSizesAttr_oplog cfg value elem :
  oplog (setSizesAttr cfg value elem)
  = oplog elem ++ attribute_ops cfg value.
Proof.
  unfold setSizesAttr, attribute_ops.
  destruct (hasPrefix (sizesAttr cfg)); simpl; [|done].
  by rewrite <- app_assoc.
Qed.

Lemma sizeElement_body_oplog cfg on width elem :
  oplog (sizeElement_body cfg on width elem)
  = oplog elem ++ commit_ops cfg width (hasSizesAuto cfg elem).
Proof.
  unfold sizeElement_body, commit_ops. rewrite triggerEvent_elem. simpl.
  change (hasSizesAuto cfg (set_autosizesWidth width elem))
    with (hasSizesAuto cfg elem).
  destruct (negb _); simpl; destruct (hasSizesAuto _ _); simpl;
    rewrite ?setSizesAttr_oplog; simpl; by rewrite <- ?app_assoc.
Qed.

(** *** The "auto" gate

    A formatted width is never the string "auto".  Hence a commit on an
    element that reads "auto" makes it read something else; and a commit
    on an element that does not read "auto" stores the width in the
    cache and leaves every attribute as it is. *)

Lemma px_not_auto (width : JS.value) : px width ≠ "auto".
Proof.
  unfold px. generalize (JS.to_string width) as s. intros s H.
  do 5 (destruct s as [|? s]; vm_compute in H; try discriminate H).
Qed.

Lemma commit_clears_auto cfg on width elem :
  hasSizesAuto cfg (sizeElement_body cfg on width elem) = false.
Proof.
  unfold hasSizesAuto at 1, getAttribute.
  rewrite sizeElement_body_attributes.
  destruct (hasSizesAuto cfg elem) eqn:Hauto.
  - rewrite setSizesAttr_lookup. apply bool_decide_eq_false_2.
    intros [= H]. by apply px_not_auto in H.
  - exact Hauto.
Qed.

Lemma commit_without_auto cfg on width elem :
  hasSizesAuto cfg elem = false →
  attributes (sizeElement_body cfg on width elem) = attributes elem
  ∧ _autosizesWidth (sizeElement_body cfg on width elem) = width
  ∧ oplog (sizeElement_body cfg on width elem)
    = oplog elem ++ commit_ops cfg width false.
Proof.
  intros Hauto.
  rewrite sizeElement_body_attributes, sizeElement_body_cache,
    sizeElement_body_oplog.
  by rewrite Hauto.
Qed.


(** ** Update Coordinator *)

Lemma node_null_or_not (n : node) : n = Null ∨ n ≠ Null.
Proof. destruct n; [by left|by right]. Qed.

Lemma getSizeElement_detached cfg on dataAttr width (s : page) :
  parentNode (dom (world s)) = Null →
  getSizeElement cfg on dataAttr width s = s.
Proof. unfold getSizeElement. by intros ->. Qed.

Lemma getSizeElement_attached cfg on dataAttr width (s : page) :
  parentNode (dom (world s)) ≠ Null →
  getSizeElement cfg on dataAttr width s
  = let answer := before_answer cfg on dataAttr width (world s) in
    let s1 := set_world (before_dispatched cfg dataAttr width (world s)) s in
    if answer.2 then s1
    else if JS.truthy (detail_width answer.1)
            && negb (JS.strict_eq (detail_width answer.1)
                       (_autosizesWidth (world s)))
         then sizeElement cfg on (detail_width answer.1) s1
         else s1.
Proof.
  intros Hp. unfold getSizeElement, before_answer, before_dispatched,
    triggerEvent.
  destruct (parentNode (dom (world s))) as [|pw pp] eqn:Hparent; [done|].
  by destruct (on _ _ _) as [d' prevented].
Qed.

Lemma truthy_strict_eq_refl (v : JS.value) :
  JS.truthy v = true → JS.strict_eq v v = true.
Proof. destruct v; simpl; try done. intros _. apply Z.eqb_refl. Qed.

(** C4. When a listener of the "before" event calls [preventDefault()],
    the update ends there, whatever width was computed: the only trace
    of the call is the dispatched "before" event.  No attribute is
    written, the cached width and the class list are unchanged, nothing
    is handed to the frame batcher (so no write and no "after" event can
    follow from this call), and no "after" event is dispatched. *)
Theorem veto_stops_update cfg on dataAttr width (s : page) :
  (before_answer cfg on dataAttr width (world s)).2 = true →
  let s' := getSizeElement cfg on dataAttr width s in
  (s' = s ∨ s' = set_world (before_dispatched cfg dataAttr width (world s)) s)
  ∧ attributes (world s') = attributes (world s)
  ∧ _autosizesWidth (world s') = _autosizesWidth (world s)
  ∧ classList (world s') = classList (world s)
  ∧ queue s' = queue s
  ∧ frames s' = frames s
  ∧ (∀ o, o ∈ oplog (world s') →
          o ∈ oplog (world s)
          ∨ ∃ w, o = DispatchEvent "beforeSizesUpdate" (BeforeDetail w dataAttr)).
Proof.
  intros Hveto s'. subst s'.
  destruct (node_null_or_not (parentNode (dom (world s)))) as [Hp|Hp].
  - rewrite getSizeElement_detached by done. repeat split; auto.
  - rewrite getSizeElement_attached by done. simpl. rewrite Hveto.
    repeat split; auto.
    intros o. simpl. rewrite elem_of_app, list_elem_of_singleton.
    intros [Ho| ->]; eauto.
Qed.

Lemma veto_stops_update_witness :
  attributes
    (world (getSizeElement defaults Sample.veto false JS.Undefined
              (Sample.fresh (Sample.img 450))))
  = attributes (Sample.img 450)
  ∧ _autosizesWidth
      (world (getSizeElement defaults Sample.veto false JS.Undefined
                (Sample.fresh (Sample.img 450))))
    = JS.Undefined.
Proof.
  pose proof (veto_stops_update defaults Sample.veto false JS.Undefined
                (Sample.fresh (Sample.img 450)) eq_refl) as H.
  split; [exact (proj1 (proj2 H)) | exact (proj1 (proj2 (proj2 H)))].
Defined.

(** A commit handed to an idle batcher is executed by the next animation
    frame, which leaves the batcher idle again. *)
Lemma sizeElement_painted cfg on width (s : page) :
  idle s →
  paint cfg on 1 (sizeElement cfg on width s)
  = Some (set_world (sizeElement_body cfg on width (world s)) s).
Proof.
  intros (Hr & Hw & Hq & Hf). destruct s as [r w q n elem].
  simpl in *. by subst.
Qed.

Lemma idle_set_world (elem : element) (s : page) :
  idle s → idle (set_world elem s).
Proof. by intros (? & ? & ? & ?). Qed.

(** The two outcomes of an update that is not vetoed. *)
Lemma getSizeElement_commits cfg on dataAttr width (s : page) (X : JS.value) :
  idle s →
  parentNode (dom (world s)) ≠ Null →
  (before_answer cfg on dataAttr width (world s)).2 = false →
  detail_width (before_answer cfg on dataAttr width (world s)).1 = X →
  JS.truthy X = true →
  JS.strict_eq X (_autosizesWidth (world s)) = false →
  paint cfg on 1 (getSizeElement cfg on dataAttr width s)
  = Some (set_world
            (sizeElement_body cfg on X
               (before_dispatched cfg dataAttr width (world s))) s).
Proof.
  intros Hidle Hp Hveto HX Htruthy Hneq.
  rewrite getSizeElement_attached by done. simpl.
  rewrite Hveto, HX, Htruthy, Hneq. simpl.
  rewrite sizeElement_painted by by apply idle_set_world.
  by destruct s.
Qed.

Lemma getSizeElement_skips cfg on dataAttr width (s : page) (X : JS.value) :
  parentNode (dom (world s)) ≠ Null →
  (before_answer cfg on dataAttr width (world s)).2 = false →
  detail_width (before_answer cfg on dataAttr width (world s)).1 = X →
  JS.truthy X = false ∨ JS.strict_eq X (_autosizesWidth (world s)) = true →
  getSizeElement cfg on dataAttr width s
  = set_world (before_dispatched cfg dataAttr width (world s)) s.
Proof.
  intros Hp Hveto HX Hskip.
  rewrite getSizeElement_attached by done. simpl.
  rewrite Hveto, HX.
  destruct Hskip as [-> | ->]; [done|]. by rewrite andb_false_r.
Qed.

(** C10. A supplied width of 0 is falsy, so [width || elem.offsetWidth]
    discards it and the element's own [offsetWidth] is the width the
    resolver starts from: the result is the one the described traversal
    reaches from [offsetWidth], the same as when no width or the
    element's [offsetWidth] itself is supplied; it is [offsetWidth]
    itself when that is not below [minSize] or when there is no
    container.  The single-element update behaves accordingly: the
    "before" event carries the width resolved from [offsetWidth].  For
    the sample image rendered 450 wide, a supplied 0 resolves to 450
    where a supplied 300 resolves to 300; rendered 10 wide in a
    container 1000 wide, a supplied 0 resolves to 1000. *)
Theorem zero_width_is_no_width :
  (∀ cfg elem parent,
     getWidth cfg elem parent (JS.Num 0)
     = getWidth cfg elem parent JS.Undefined)
  ∧ (∀ cfg on dataAttr s,
       getSizeElement cfg on dataAttr (JS.Num 0) s
       = getSizeElement cfg on dataAttr JS.Undefined s)
  ∧ (∀ cfg elem parent,
       resolves cfg elem parent (offsetWidth (dom elem))
         (getWidth cfg elem parent (JS.Num 0)))
  ∧ (∀ cfg elem parent,
       getWidth cfg elem parent (JS.Num 0)
       = getWidth cfg elem parent (offsetWidth (dom elem)))
  ∧ (∀ cfg elem parent,
       JS.lt (offsetWidth (dom elem)) (JS.Num (minSize cfg)) = false →
       getWidth cfg elem parent (JS.Num 0) = offsetWidth (dom elem))
  ∧ (∀ cfg elem,
       getWidth cfg elem Null (JS.Num 0) = offsetWidth (dom elem))
  ∧ (∀ cfg on dataAttr (s : page),
       parentNode (dom (world s)) ≠ Null →
       ∃ rest,
         oplog (world (getSizeElement cfg on dataAttr (JS.Num 0) s))
         = oplog (world s)
           ++ DispatchEvent "beforeSizesUpdate"
                (BeforeDetail
                   (getWidth_while cfg (world s) (parentNode (dom (world s)))
                      (offsetWidth (dom (world s))))
                   dataAttr)
              :: rest)
  ∧ getWidth defaults (Sample.img 450) Sample.container (JS.Num 0)
    = JS.Num 450
  ∧ getWidth defaults (Sample.img 450) Sample.container (JS.Num 300)
    = JS.Num 300
  ∧ getWidth defaults (Sample.img 10) Sample.container (JS.Num 0)
    = JS.Num 1000.
Proof.
  split; [reflexivity|]. split; [reflexivity|].
  split; [intros; apply getWidth_while_resolves|].
  split.
  { intros cfg elem parent. unfold getWidth, JS.or. simpl.
    by destruct (JS.truthy (offsetWidth (dom elem))). }
  split.
  { intros cfg elem parent Hlt. unfold getWidth, JS.or. simpl.
    destruct parent; simpl; by rewrite Hlt. }
  split.
  { intros cfg elem. unfold getWidth, JS.or. simpl.
    by destruct (JS.lt _ _). }
  split; [|by repeat split].
  intros cfg on dataAttr s Hp.
  rewrite getSizeElement_attached by done. simpl.
  destruct (before_answer _ _ _ _ _).2.
  { by exists []. }
  destruct (_ && _).
  - unfold sizeElement, rAFIt, rAF.
    destruct s as [r w q n elem]. simpl in *.
    destruct r; simpl.
    + rewrite sizeElement_body_oplog. simpl.
      rewrite <- app_assoc. by eexists.
    + destruct w; by exists [].
  - by exists [].
Qed.

(** The sample image under the default configuration: its rendered
    width is not below [minSize], so a supplied 0 resolves to it. *)
Lemma zero_width_is_no_width_witness :
  getWidth defaults (Sample.img 450) Sample.container (JS.Num 0)
  = JS.Num 450.
Proof.
  exact (proj1 (proj2 (proj2 (proj2 (proj2 zero_width_is_no_width))))
           defaults (Sample.img 450) Sample.container eq_refl).
Defined.

(** C9 (as amended). Take a configuration whose attribute and class
    names the DOM takes as they are, an element whose size attribute
    reads "auto", and an integer X of the range that JavaScript prints
    by its digits.  When a "before" listener replaces [detail.width] by
    X, X is not 0 and differs from the cached width, and the listeners
    neither veto nor touch the element, the next animation frame commits
    X: the attribute (and the bare attribute of a prefixed name) is
    "Xpx", the cached width is X, and the "after" event carries X and
    "Xpx"; the width that was originally resolved only appears in the
    "before" event. *)
Theorem listener_width_is_committed cfg on dataAttr width (s : page)
    (X : Z) :
  well_configured cfg = true →
  Z.abs X <= 9007199254740991 →
  X ≠ 0 →
  idle s →
  parentNode (dom (world s)) ≠ Null →
  hasSizesAuto cfg (world s) = true →
  (before_answer cfg on dataAttr width (world s)).2 = false →
  detail_width (before_answer cfg on dataAttr width (world s)).1 = JS.Num X →
  _autosizesWidth (world s) ≠ JS.Num X →
  ∃ s', paint cfg on 1 (getSizeElement cfg on dataAttr width s) = Some s'
    ∧ idle s'
    ∧ attributes (world s') !! sizesAttr cfg = Some (px (JS.Num X))
    ∧ (hasPrefix (sizesAttr cfg) = true →
       attributes (world s') !! getBaseAttr (sizesAttr cfg)
       = Some (px (JS.Num X)))
    ∧ _autosizesWidth (world s') = JS.Num X
    ∧ oplog (world s')
      = oplog (before_dispatched cfg dataAttr width (world s))
        ++ commit_ops cfg (JS.Num X) true.
Proof.
  intros _ _ HX0 Hidle Hp Hauto Hveto HX Hcache.
  assert (Htruthy : JS.truthy (JS.Num X) = true).
  { simpl. apply negb_true_iff. by apply Z.eqb_neq. }
  assert (Hneq : JS.strict_eq (JS.Num X) (_autosizesWidth (world s)) = false).
  { destruct (_autosizesWidth (world s)) as [| |n]; simpl; try done.
    apply Z.eqb_neq. intros ->. by apply Hcache. }
  rewrite getSizeElement_attached by done. simpl.
  rewrite Hveto, HX, Htruthy, Hneq. simpl.
  rewrite sizeElement_painted by by apply idle_set_world.
  eexists. split; [done|]. simpl.
  split; [by apply idle_set_world|].
  rewrite sizeElement_body_attributes, sizeElement_body_cache,
    sizeElement_body_oplog.
  change (hasSizesAuto cfg (before_dispatched cfg dataAttr width (world s)))
    with (hasSizesAuto cfg (world s)).
  rewrite Hauto.
  split; [apply setSizesAttr_lookup|].
  split; [|done].
  intros Hpre. unfold setSizesAttr. rewrite Hpre. simpl.
  apply lookup_insert_eq.
Qed.

Lemma listener_width_is_committed_witness :
  ∃ s', paint defaults (Sample.set_width (JS.Num 500)) 1
          (getSizeElement defaults (Sample.set_width (JS.Num 500)) false
             JS.Undefined (Sample.fresh (Sample.img 450))) = Some s'
    ∧ attributes (world s') !! "sizes" = Some "500px"
    ∧ _autosizesWidth (world s') = JS.Num 500.
Proof.
  destruct (listener_width_is_committed defaults
              (Sample.set_width (JS.Num 500)) false JS.Undefined
              (Sample.fresh (Sample.img 450)) 500
              eq_refl ltac:(simpl; lia) ltac:(lia)
              ltac:(repeat split) ltac:(discriminate)
              eq_refl eq_refl eq_refl ltac:(discriminate))
    as (s' & Hpaint & _ & Hattr & _ & Hcache & _).
  exists s'. split; [exact Hpaint|]. split; [exact Hattr|exact Hcache].
Defined.

(** C9, as stated, fails for X = 0: the listener's width is falsy, the
    update stops after the "before" event, nothing is handed to the
    frame batcher, the attribute still reads "auto" (not "0px") and no
    "after" event is dispatched. *)
Lemma listener_zero_width_not_committed :
  let on := Sample.set_width (JS.Num 0) in
  let s := Sample.fresh (Sample.img 450) in
  let s' := getSizeElement defaults on false JS.Undefined s in
  (before_answer defaults on false JS.Undefined (world s)).2 = false
  ∧ detail_width (before_answer defaults on false JS.Undefined (world s)).1
    = JS.Num 0
  ∧ queue s' = [] ∧ frames s' = 0%nat
  ∧ paint defaults on 1 s' = None
  ∧ attributes (world s') !! "sizes" = Some "auto"
  ∧ attributes (world s') !! "sizes" ≠ Some (px (JS.Num 0))
  ∧ after_events (oplog (world s')) = 0%nat.
Proof. repeat split; try reflexivity. discriminate. Qed.

(** ** Counting attribute writes *)

Lemma attribute_writes_app name (l1 l2 : list dom_op) :
  attribute_writes name (l1 ++ l2)
  = (attribute_writes name l1 + attribute_writes name l2)%nat.
Proof.
  induction l1 as [|o l1 IH]; simpl; [done|].
  destruct o as [n v| |]; try done.
  destruct (String.eqb n name); simpl; by rewrite IH.
Qed.

Lemma after_events_app (l1 l2 : list dom_op) :
  after_events (l1 ++ l2) = (after_events l1 + after_events l2)%nat.
Proof.
  induction l1 as [|o l1 IH]; simpl; [done|].
  destruct o as [| |n [|]]; simpl; by rewrite ?IH.
Qed.

Lemma getBaseAttr_neq (attr : string) :
  hasPrefix attr = true → getBaseAttr attr ≠ attr.
Proof.
  intros Hp Heq. pose proof Hp as Hp'.
  apply hasPrefix_spec in Hp' as [Hinc _].
  unfold getBaseAttr in Heq. rewrite Hp in Heq.
  pose proof (last_split_no_separator "-" attr) as Hno.
  rewrite Heq in Hno. congruence.
Qed.

(** A commit on an "auto" element writes the configured attribute once
    and dispatches one "after" event. *)
Lemma commit_ops_writes cfg width :
  attribute_writes (sizesAttr cfg) (commit_ops cfg width true) = 1%nat.
Proof.
  unfold commit_ops, attribute_ops. simpl. rewrite String.eqb_refl.
  rewrite attribute_writes_app.
  destruct (hasPrefix (sizesAttr cfg)) eqn:Hp; simpl.
  - apply getBaseAttr_neq, String.eqb_neq in Hp. rewrite Hp.
    by destruct (negb _).
  - by destruct (negb _).
Qed.

Lemma commit_ops_after_events cfg width auto :
  after_events (commit_ops cfg width auto) = 1%nat.
Proof.
  unfold commit_ops, attribute_ops. rewrite !after_events_app.
  destruct auto; [destruct (hasPrefix _)|]; by destruct (negb _).
Qed.

(** ** Attribute write contract *)

Lemma commit_ops_writes_name cfg width (name : string) :
  attribute_writes name (commit_ops cfg width true)
  = ((if String.eqb (sizesAttr cfg) name then 1 else 0)
     + (if hasPrefix (sizesAttr cfg)
           && String.eqb (getBaseAttr (sizesAttr cfg)) name
        then 1 else 0))%nat.
Proof.
  unfold commit_ops, attribute_ops.
  rewrite attribute_writes_app. simpl.
  assert (Hrest : attribute_writes name
            ((if negb (String.eqb (processedElementClass cfg) "")
              then [ClassListAdd (processedElementClass cfg)] else [])
             ++ [DispatchEvent "afterSizesUpdate"
                   (AfterDetail width (px width))]) = 0%nat).
  { by destruct (negb _). }
  rewrite Hrest.
  destruct (hasPrefix (sizesAttr cfg)); simpl;
    destruct (String.eqb (sizesAttr cfg) name); simpl;
    try destruct (String.eqb (getBaseAttr (sizesAttr cfg)) name); simpl; lia.
Qed.

Lemma hasPrefix_includes (attr : string) :
  hasPrefix attr = JS.includes "-" attr.
Proof.
  unfold hasPrefix. destruct (String.eqb attr "sizes") eqn:Heq; simpl.
  - apply String.eqb_eq in Heq as ->. reflexivity.
  - apply andb_true_r.
Qed.

(** C8 (as amended). Take a configuration whose attribute and class
    names the DOM takes as they are, listeners that leave the element as
    it is, an element whose configured size attribute reads "auto", and
    an integer width of the range that JavaScript prints by its digits.
    The commit of that width sets the configured attribute to the width
    followed by "px".  When the configured name contains a hyphen (it is
    then not "sizes"), it is some prefix, a hyphen and a bare name
    without hyphen, and the bare attribute is set to the same value.
    [setAttribute] is called once for the configured attribute, once for
    the bare attribute of a name with a hyphen, and for no other
    attribute (for "sizes", then, for [sizes] alone); every attribute
    other than these and [class] is as before. *)
Theorem commit_writes_size_attributes cfg on (n : Z) elem :
  well_configured cfg = true →
  Z.abs n <= 9007199254740991 →
  hasSizesAuto cfg elem = true →
  let attr := sizesAttr cfg in
  let elem' := sizeElement_body cfg on (JS.Num n) elem in
  attributes elem' !! attr = Some (px (JS.Num n))
  ∧ (JS.includes "-" attr = true →
     attr ≠ "sizes"
     ∧ ∃ prefix base,
         attr = prefix +:+ "-" +:+ base
         ∧ JS.includes "-" base = false
         ∧ getBaseAttr attr = base
         ∧ attributes elem' !! base = Some (px (JS.Num n)))
  ∧ (∀ name,
       attribute_writes name (oplog elem')
       = (attribute_writes name (oplog elem)
          + (if String.eqb attr name then 1 else 0)
          + (if JS.includes "-" attr && String.eqb (getBaseAttr attr) name
             then 1 else 0))%nat)
  ∧ (attr = "sizes" →
     ∀ name,
       attribute_writes name (oplog elem')
       = (attribute_writes name (oplog elem)
          + if String.eqb "sizes" name then 1 else 0)%nat)
  ∧ (∀ name,
       name ≠ attr →
       ¬ (JS.includes "-" attr = true ∧ name = getBaseAttr attr) →
       name ≠ "class" →
       attributes elem' !! name = attributes elem !! name).
Proof.
  intros _ _ Hauto attr elem'. subst attr elem'.
  rewrite sizeElement_body_attributes, sizeElement_body_oplog, Hauto.
  rewrite <- hasPrefix_includes.
  assert (Hwrites : ∀ name,
    attribute_writes name (oplog elem ++ commit_ops cfg (JS.Num n) true)
    = (attribute_writes name (oplog elem)
       + (if String.eqb (sizesAttr cfg) name then 1 else 0)
       + (if hasPrefix (sizesAttr cfg)
             && String.eqb (getBaseAttr (sizesAttr cfg)) name
          then 1 else 0))%nat).
  { intros name. rewrite attribute_writes_app, commit_ops_writes_name. lia. }
  split; [apply setSizesAttr_lookup|].
  split; [|split; [done|split]].
  - intros Hp. pose proof Hp as Hspec.
    apply hasPrefix_spec in Hspec as [Hinc Hne].
    split; [done|].
    destruct (last_split_is_suffix "-" (sizesAttr cfg) Hinc) as [prefix Hpre].
    exists prefix, (getBaseAttr (sizesAttr cfg)).
    unfold getBaseAttr. rewrite Hp.
    split; [done|]. split; [apply last_split_no_separator|].
    split; [done|].
    unfold setSizesAttr, getBaseAttr. rewrite Hp. simpl.
    apply lookup_insert_eq.
  - intros Hattr name. rewrite Hwrites, Hattr. simpl. lia.
  - intros name Hattr Hbase _. unfold setSizesAttr.
    destruct (hasPrefix (sizesAttr cfg)); simpl.
    + rewrite !lookup_insert_ne; [done|done|].
      intros Heq. apply Hbase. by split.
    + by rewrite lookup_insert_ne.
Qed.

(** With [sizesAttr: 'data-sizes'] and the width 450, both [data-sizes]
    and [sizes] become "450px", and [srcset] is as before. *)
Lemma commit_writes_size_attributes_witness :
  let elem := {| dom := Node (JS.Num 450) Sample.container;
                 attributes := {[ "data-sizes" := "auto";
                                  "srcset" := "a.jpg 300w" ]};
                 classList := ["autosizes"];
                 _autosizesWidth := JS.Undefined; oplog := [] |} in
  let elem' := sizeElement_body data_sizes silent (JS.Num 450) elem in
  attributes elem' !! "data-sizes" = Some "450px"
  ∧ attributes elem' !! "sizes" = Some "450px"
  ∧ attributes elem' !! "srcset" = Some "a.jpg 300w".
Proof.
  intros elem elem'.
  destruct (commit_writes_size_attributes data_sizes silent 450 elem
              eq_refl ltac:(simpl; lia) eq_refl)
    as (Hattr & Hbase & _ & _ & Hother).
  split; [exact Hattr|].
  split.
  - destruct (Hbase eq_refl) as (_ & prefix & base & _ & _ & Hb & Hlookup).
    vm_compute in Hb. subst base. exact Hlookup.
  - apply (Hother "srcset"); [discriminate| |discriminate].
    intros [_ H]. discriminate H.
Defined.

(** C8, as stated, fails on an element that has not opted in.  The image
    carries the class and [sizes="100vw"]: the update resolves 450 and
    the commit runs (the cached width is 450, the "after" event is
    dispatched), but no attribute is written, under the default
    configuration and under [sizesAttr: 'data-sizes'] alike. *)
Lemma commit_without_auto_writes_no_attribute :
  size_state <$> first_pass_of defaults (authored_img 450)
  = Some (JS.Num 450, None, Some "100vw", 0, 0, 1)%nat
  ∧ size_state <$> first_pass_of data_sizes (authored_img 450)
    = Some (JS.Num 450, None, Some "100vw", 0, 0, 1)%nat
  ∧ px (JS.Num 450) = "450px".
Proof. repeat split; vm_compute; reflexivity. Qed.

(** ** Idempotence *)

(** C5 (as amended). Take an element whose size attribute reads "auto"
    and whose resolved width is truthy and differs from the cached width,
    with listeners that neither mutate nor veto.  The first update is
    committed by the next animation frame.  A second update that comes
    after that frame and resolves to the same width is a no-op: the
    resolved width equals the cached width, so nothing is handed to the
    frame batcher, and attributes and cache stay as they are.  Over the
    two calls the size attribute is written exactly once, and one "after"
    event is dispatched. *)
Theorem update_twice_writes_once cfg dataAttr width (s : page) :
  idle s →
  parentNode (dom (world s)) ≠ Null →
  hasSizesAuto cfg (world s) = true →
  let w := getWidth cfg (world s) (parentNode (dom (world s))) width in
  JS.truthy w = true →
  JS.strict_eq w (_autosizesWidth (world s)) = false →
  ∃ s1, paint cfg silent 1 (getSizeElement cfg silent dataAttr width s)
        = Some s1
    ∧ _autosizesWidth (world s1) = w
    ∧ attributes (world s1) !! sizesAttr cfg = Some (px w)
    ∧ (getWidth cfg (world s1) (parentNode (dom (world s1))) width = w →
       let s2 := getSizeElement cfg silent dataAttr width s1 in
       s2 = set_world (before_dispatched cfg dataAttr width (world s1)) s1
       ∧ idle s2
       ∧ attributes (world s2) = attributes (world s1)
       ∧ _autosizesWidth (world s2) = _autosizesWidth (world s1)
       ∧ attribute_writes (sizesAttr cfg) (oplog (world s2))
         = S (attribute_writes (sizesAttr cfg) (oplog (world s)))
       ∧ after_events (oplog (world s2)) = S (after_events (oplog (world s)))).
Proof.
  intros Hidle Hp Hauto w Htruthy Hneq.
  set (elem1 := sizeElement_body cfg silent w
                  (before_dispatched cfg dataAttr width (world s))).
  exists (set_world elem1 s).
  assert (Hcache1 : _autosizesWidth elem1 = w)
    by apply sizeElement_body_cache.
  assert (Hdom1 : dom elem1 = dom (world s))
    by (subst elem1; by rewrite sizeElement_body_dom).
  assert (Hlog1 : oplog elem1
                  = oplog (before_dispatched cfg dataAttr width (world s))
                    ++ commit_ops cfg w true).
  { subst elem1. rewrite sizeElement_body_oplog.
    change (hasSizesAuto cfg (before_dispatched cfg dataAttr width (world s)))
      with (hasSizesAuto cfg (world s)).
    by rewrite Hauto. }
  assert (Hattr1 : attributes elem1 !! sizesAttr cfg = Some (px w)).
  { subst elem1. rewrite sizeElement_body_attributes.
    change (hasSizesAuto cfg (before_dispatched cfg dataAttr width (world s)))
      with (hasSizesAuto cfg (world s)).
    rewrite Hauto. apply setSizesAttr_lookup. }
  split; [by apply getSizeElement_commits|].
  clearbody elem1.
  change (world (set_world elem1 s)) with elem1.
  split; [done|]. split; [done|].
  intros Hsame.
  rewrite (getSizeElement_skips cfg silent dataAttr width (set_world elem1 s) w).
  - split; [done|]. split; [by apply idle_set_world|].
    split; [done|]. split; [done|].
    change (world (set_world elem1 s)) with elem1.
    unfold before_dispatched. simpl.
    rewrite Hlog1. unfold before_dispatched. simpl.
    rewrite !attribute_writes_app, !after_events_app.
    rewrite commit_ops_writes, commit_ops_after_events. simpl. lia.
  - change (world (set_world elem1 s)) with elem1. by rewrite Hdom1.
  - done.
  - exact Hsame.
  - right. change (world (set_world elem1 s)) with elem1.
    rewrite Hcache1. by apply truthy_strict_eq_refl.
Qed.

Lemma update_twice_writes_once_witness :
  ∃ s1, paint defaults silent 1
          (getSizeElement defaults silent false JS.Undefined
             (Sample.fresh (Sample.img 450))) = Some s1
    ∧ attribute_writes "sizes"
        (oplog (world (getSizeElement defaults silent false JS.Undefined s1)))
      = 1%nat.
Proof.
  destruct (update_twice_writes_once defaults false JS.Undefined
              (Sample.fresh (Sample.img 450))
              ltac:(repeat split) ltac:(discriminate)
              eq_refl eq_refl eq_refl)
    as (s1 & Hpaint & Hcache & Hattr & Hsecond).
  exists s1. split; [exact Hpaint|].
  refine (proj1 (proj2 (proj2 (proj2 (proj2 (Hsecond _)))))).
  injection Hpaint as <-. reflexivity.
Defined.

(** C5, as stated, fails in three ways.  (a) Two updates in the same
    synchronous pass, before the animation frame: the resolved width is
    450 both times and no listener interferes, but the cached width is
    only set when the frame runs, so the second call is not a no-op: it
    queues a second commit, and two "after" events are dispatched.
    (b) An element whose size attribute does not read "auto": no
    attribute write at all results from the two calls.
    (c) An element that, like its container, is rendered 0 wide: the
    resolved width is 0 both times and nothing is ever written. *)
Lemma update_twice_counterexample :
  (let s := Sample.fresh (Sample.img 450) in
   let s1 := getSizeElement defaults silent false JS.Undefined s in
   let s2 := getSizeElement defaults silent false JS.Undefined s1 in
   getWidth defaults (world s) (parentNode (dom (world s))) JS.Undefined
   = JS.Num 450
   ∧ getWidth defaults (world s1) (parentNode (dom (world s1))) JS.Undefined
     = JS.Num 450
   ∧ queue s1 = [Do (JS.Num 450) Return]
   ∧ queue s2 = [Do (JS.Num 450) Return; Do (JS.Num 450) Return]
   ∧ ∃ s3, paint defaults silent 2 s2 = Some s3
       ∧ after_events (oplog (world s3)) = 2%nat)
  ∧ (let elem := {| dom := Node (JS.Num 450) Sample.container;
                    attributes := {[ "sizes" := "100vw" ]};
                    classList := ["autosizes"];
                    _autosizesWidth := JS.Undefined;
                    oplog := [] |} in
     ∃ s1, paint defaults silent 1
             (getSizeElement defaults silent false JS.Undefined
                (Sample.fresh elem)) = Some s1
       ∧ attribute_writes "sizes"
           (oplog (world (getSizeElement defaults silent false JS.Undefined s1)))
         = 0%nat)
  ∧ (let elem := {| dom := Node (JS.Num 0) (Node (JS.Num 0) Null);
                    attributes := {[ "sizes" := "auto" ]};
                    classList := ["autosizes"];
                    _autosizesWidth := JS.Undefined;
                    oplog := [] |} in
     let s1 := getSizeElement defaults silent false JS.Undefined
                 (Sample.fresh elem) in
     let s2 := getSizeElement defaults silent false JS.Undefined s1 in
     queue s2 = [] ∧ frames s2 = 0%nat
     ∧ attribute_writes "sizes" (oplog (world s2)) = 0%nat).
Proof.
  split; [|split].
  - repeat split; try (vm_compute; reflexivity).
    eexists. split; vm_compute; reflexivity.
  - eexists. split; vm_compute; reflexivity.
  - repeat split; vm_compute; reflexivity.
Qed.

(** ** Re-commit after the first commit *)

(** C2 (the code does not do this). After the first commit has set
    [sizes="450px"], the image is resized to 600.  The update is not
    vetoed, its width 600 is nonzero and differs from the cached 450, and
    the commit runs (the cached width becomes 600 and the "after" event
    announces "600px"), but the attribute is not written again: it still
    reads "450px", because [hasSizesAuto] no longer holds. *)
Theorem resize_after_commit_keeps_old_sizes :
  (s1 ← first_pass defaults; attributes (world s1) !! "sizes") = Some "450px"
  ∧ (_autosizesWidth ∘ world) <$> first_pass defaults = Some (JS.Num 450)
  ∧ (λ s1, before_answer defaults silent false JS.Undefined
             (world (Sample.resized 600 s1))) <$> first_pass defaults
    = Some (BeforeDetail (JS.Num 600) false, false)
  ∧ (_autosizesWidth ∘ world) <$> second_pass defaults = Some (JS.Num 600)
  ∧ (s2 ← second_pass defaults; attributes (world s2) !! "sizes") = Some "450px"
  ∧ (s2 ← second_pass defaults; attributes (world s2) !! "sizes")
    ≠ Some (px (JS.Num 600))
  ∧ (attribute_writes "sizes" ∘ oplog ∘ world) <$> second_pass defaults = Some 1%nat
  ∧ (λ s2, List.last (oplog (world s2)) (ClassListAdd "")) <$> second_pass defaults
    = Some (DispatchEvent "afterSizesUpdate"
              (AfterDetail (JS.Num 600) "600px")).
Proof.
  repeat split; try (vm_compute; reflexivity).
  vm_compute. discriminate.
Qed.

(** C1 (the code does not do this). On the same run, the second commit
    changes the cached width from 450 to 600 although no write reaches
    the page: attributes and class list are what they were, and the
    operations of the second update contain no [setAttribute], only a
    [classList.add] of a class that is already there and the two events.
    Without a processed-marker class the second update consists of the
    two events alone. *)
Theorem cache_changes_without_dom_write :
  ((_autosizesWidth ∘ world) <$> first_pass defaults = Some (JS.Num 450)
   ∧ (_autosizesWidth ∘ world) <$> second_pass defaults = Some (JS.Num 600)
   ∧ (attributes ∘ world) <$> second_pass defaults
     = (attributes ∘ world) <$> first_pass defaults
   ∧ (classList ∘ world) <$> second_pass defaults
     = (classList ∘ world) <$> first_pass defaults
   ∧ (oplog ∘ world) <$> second_pass defaults
     = (λ s1, oplog (world s1)
              ++ [DispatchEvent "beforeSizesUpdate"
                    (BeforeDetail (JS.Num 600) false);
                  ClassListAdd "autosized";
                  DispatchEvent "afterSizesUpdate"
                    (AfterDetail (JS.Num 600) "600px")])
       <$> first_pass defaults)
  ∧ ((_autosizesWidth ∘ world) <$> first_pass no_marker_class
     = Some (JS.Num 450)
     ∧ (_autosizesWidth ∘ world) <$> second_pass no_marker_class
       = Some (JS.Num 600)
     ∧ (attributes ∘ world) <$> second_pass no_marker_class
       = (attributes ∘ world) <$> first_pass no_marker_class
     ∧ (classList ∘ world) <$> second_pass no_marker_class
       = (classList ∘ world) <$> first_pass no_marker_class
     ∧ (oplog ∘ world) <$> second_pass no_marker_class
       = (λ s1, oplog (world s1)
                ++ [DispatchEvent "beforeSizesUpdate"
                      (BeforeDetail (JS.Num 600) false);
                    DispatchEvent "afterSizesUpdate"
                      (AfterDetail (JS.Num 600) "600px")])
         <$> first_pass no_marker_class).
Proof.
  repeat split; vm_compute; reflexivity.
Qed.

(** ** Debounced Trigger *)

(** C6 (the code does not do this). [debounce] reads
    [config.resizeDebounce] when the module is evaluated, before [init]
    merges the user's overrides: whatever [window.autoSizesConfig] says,
    the debounced update waits 99 ms.  With [resizeDebounce: 500], two
    notifications 200 ms apart (a burst, since 200 < 500) lead to two
    executions of the update pass, at 99 and at 299: the first one comes
    before the last notification, and the second only 99 ms after it. *)
Theorem configured_resizeDebounce_is_ignored :
  (∀ user, Debounce.wait (debouncedUpdate (autoSizes_init user load)) = 99)
  ∧ (let lib := autoSizes_init (Some slow_resize) load in
     resizeDebounce (config lib) = 500
     ∧ Debounce.executions
         <$> Debounce.simulate (Debounce.wait (debouncedUpdate lib)) false
               0 two_resizes Debounce.initial
       = Some [99; 299]
     ∧ Debounce.executions
         <$> Debounce.simulate (Debounce.wait (debouncedUpdate lib)) true
               0 two_resizes_idle Debounce.initial
       = Some [99; 299]).
Proof.
  split; [by intros [u|]|].
  repeat split; vm_compute; reflexivity.
Qed.

(** The mechanism itself coalesces a burst, for the [wait] it captured.
    The closure is, at any time, in one of four situations. *)
Section DebounceFacts.

Import Debounce.

Variable wait : Z.
Variable hasIdleCallback : bool.

Lemma step_phase clock last s e s' :
  phase wait clock last s →
  clock ≤ time_of e →
  step wait hasIdleCallback e s = Some s' →
  (∀ t ts, e = Invoke t → last = Some ts → t - ts < wait) →
  phase wait (time_of e)
    (match e with Invoke t => Some t | _ => last end) s'.
Proof.
  intros Hphase Hclock Hstep Hburst.
  destruct Hphase as [|ts id tid due nid Hts|ts id nid Hts|ts t nid Hts Ht].
  - destruct e as [t|id t|t]; simpl in *; [|done..].
    injection Hstep as <-. by apply phase_armed.
  - destruct e as [t|id' t|t]; simpl in *; [| |done].
    + injection Hstep as <-. apply phase_armed. lia.
    + destruct (Pos.eqb tid id'); simpl in Hstep; [|done].
      destruct (due <=? t); [|done].
      injection Hstep as <-. unfold later. simpl.
      destruct (t - ts <? wait) eqn:Hlast; simpl.
      * apply phase_armed. lia.
      * apply Z.ltb_ge in Hlast.
        destruct hasIdleCallback; simpl.
        -- apply phase_idle. lia.
        -- apply phase_done; lia.
  - destruct e as [t|id' t|t]; simpl in *; [|done|].
    + specialize (Hburst t ts eq_refl eq_refl). lia.
    + injection Hstep as <-. apply phase_done; lia.
  - destruct e as [t'|id' t'|t']; simpl in *; [|done..].
    specialize (Hburst t' ts eq_refl eq_refl). lia.
Qed.

Lemma last_invocation_cons previous t ts :
  last_invocation previous (t :: ts) = last_invocation (Some t) ts.
Proof.
  assert (H : ∀ (l : list (option Z)) x d,
             List.last (x :: l) d = List.last l x).
  { induction l as [|y l IH]; intros x d; [done|].
    change (List.last (x :: y :: l) d) with (List.last (y :: l) d).
    by rewrite !IH. }
  apply H.
Qed.

Lemma simulate_phase evs : ∀ clock last s s',
  phase wait clock last s →
  simulate wait hasIdleCallback clock evs s = Some s' →
  burst_after wait last (invocations evs) →
  ∃ clock', phase wait clock' (last_invocation last (invocations evs)) s'.
Proof.
  induction evs as [|e evs IH]; intros clock last s s' Hphase Hsim Hburst.
  - simpl in *. injection Hsim as <-. by exists clock.
  - simpl in Hsim. destruct (clock <=? time_of e) eqn:Hclock; [|done].
    apply Z.leb_le in Hclock.
    destruct (step wait hasIdleCallback e s) as [s1|] eqn:Hstep; [|done].
    simpl in Hsim.
    destruct e as [t|id t|t]; simpl in Hburst.
    + destruct Hburst as [Hgap Hrest].
      eapply (IH _ (Some t)) in Hsim; [| |exact Hrest].
      * destruct Hsim as [clock' Hp]. exists clock'.
        change (invocations (Invoke t :: evs)) with (t :: invocations evs).
        by rewrite last_invocation_cons.
      * apply (step_phase clock last s (Invoke t)); try done.
        intros t' ts [= <-] ->. exact Hgap.
    + eapply (IH _ last) in Hsim; [done| |exact Hburst].
      by apply (step_phase clock last s (TimerFires id t)).
    + eapply (IH _ last) in Hsim; [done| |exact Hburst].
      by apply (step_phase clock last s (IdleCallback t)).
Qed.

(** For every schedule that the platform can run from the initial state,
    whose invocations form a burst (each less than [wait] after the
    previous one), and after which no timer and no idle callback is
    left, the wrapped function has been executed exactly once, at least
    [wait] after the last invocation. *)
Lemma debounce_coalesces_burst evs s tN :
  simulate wait hasIdleCallback 0 evs initial = Some s →
  burst_after wait None (invocations evs) →
  last_invocation None (invocations evs) = Some tN →
  timers s = [] →
  idle s = 0%nat →
  ∃ t, executions s = [t] ∧ tN + wait ≤ t.
Proof.
  intros Hsim Hburst Hlast Htimers Hidle.
  destruct (simulate_phase evs 0 None initial s (phase_fresh wait 0) Hsim Hburst)
    as [clock Hphase].
  rewrite Hlast in Hphase.
  inversion Hphase; subst; simpl in *; try done.
  eauto.
Qed.

End DebounceFacts.

(** What the debounced update of the library does, whatever the
    configuration: bursts are coalesced with respect to 99 ms. *)
Lemma debouncedUpdate_coalesces_99 user hasIdleCallback evs s tN :
  Debounce.simulate
    (Debounce.wait (debouncedUpdate (autoSizes_init user load)))
    hasIdleCallback 0 evs Debounce.initial = Some s →
  Debounce.burst_after 99 None (Debounce.invocations evs) →
  Debounce.last_invocation None (Debounce.invocations evs) = Some tN →
  Debounce.timers s = [] →
  Debounce.idle s = 0%nat →
  ∃ t, Debounce.executions s = [t] ∧ tN + 99 ≤ t.
Proof.
  intros Hsim. apply debounce_coalesces_burst with (hasIdleCallback := hasIdleCallback).
  by destruct user.
Qed.

Example short_burst_runs_once :
  ∃ s, Debounce.simulate 99 false 0 short_burst Debounce.initial = Some s
    ∧ Debounce.executions s = [149].
Proof.
  eexists. split; vm_compute; reflexivity.
Qed.

(** * Further properties of the code *)

(** ** Width Resolver: which width is returned *)

Lemma getWidth_while_first_fit cfg elem parent start :
  JS.truthy (_autosizesWidth elem) = false →
  ∃ skipped rest,
    start :: container_widths parent
    = skipped ++ getWidth_while cfg elem parent start :: rest
    ∧ Forall (λ w, JS.lt w (JS.Num (minSize cfg)) = true) skipped
    ∧ (JS.lt (getWidth_while cfg elem parent start) (JS.Num (minSize cfg))
       = false
       ∨ rest = []).
Proof.
  intros Hcache. revert start.
  induction parent as [|pw pp IH]; intros start; simpl.
  - exists [], []. split; [by destruct (JS.lt _ _)|]. split; [done|by right].
  - destruct (JS.lt start _) eqn:Hlt.
    + rewrite Hcache. simpl.
      destruct (IH pw) as (skipped & rest & Heq & Hall & Hlast).
      exists (start :: skipped), rest. split; [by rewrite Heq|].
      split; [by constructor|done].
    + exists [], (pw :: container_widths pp). split; [done|].
      split; [done|by left].
Qed.

(** X1. For an element without a cached width, [getWidth] returns the
    first width, in the chain that starts with the element's own (or
    supplied) width and continues with its containers' widths from the
    nearest to the root-most, that is not below [minSize]; when every
    width of the chain is below [minSize], it returns the last one, the
    root-most container's. *)
Theorem getWidth_first_fit cfg elem parent width :
  JS.truthy (_autosizesWidth elem) = false →
  ∃ skipped rest,
    JS.or width (offsetWidth (dom elem)) :: container_widths parent
    = skipped ++ getWidth cfg elem parent width :: rest
    ∧ Forall (λ w, JS.lt w (JS.Num (minSize cfg)) = true) skipped
    ∧ (JS.lt (getWidth cfg elem parent width) (JS.Num (minSize cfg)) = false
       ∨ rest = []).
Proof. intros Hcache. by apply getWidth_while_first_fit. Qed.

Lemma getWidth_first_fit_witness :
  ∃ skipped rest,
    [JS.Num 0; JS.Num 0; JS.Num 20] = skipped ++ JS.Num 20 :: rest
    ∧ Forall (λ w, JS.lt w (JS.Num 40) = true) skipped
    ∧ (JS.lt (JS.Num 20) (JS.Num 40) = false ∨ rest = []).
Proof.
  exact (getWidth_first_fit defaults
           {| dom := Node (JS.Num 0) (Node (JS.Num 0) (Node (JS.Num 20) Null));
              attributes := ∅; classList := [];
              _autosizesWidth := JS.Undefined; oplog := [] |}
           (Node (JS.Num 0) (Node (JS.Num 20) Null)) JS.Undefined eq_refl).
Defined.

(** ** Attribute names *)

Section SplitMore.

Variable c : ascii.

Lemma append_nil (x : string) : EmptyString +:+ x = x.
Proof. reflexivity. Qed.

Lemma append_cons (d : ascii) (p x : string) :
  String d p +:+ x = String d (p +:+ x).
Proof. reflexivity. Qed.

Lemma includes_app_separator (p b : string) :
  JS.includes c (p +:+ String c b) = true.
Proof.
  induction p as [|d p IH].
  - rewrite append_nil. simpl. by rewrite Ascii.eqb_refl.
  - rewrite append_cons. simpl. rewrite IH. by destruct (Ascii.eqb d c).
Qed.

Lemma last_split_app (p b : string) :
  List.last (JS.split c (p +:+ String c b)) EmptyString
  = List.last (JS.split c b) EmptyString.
Proof.
  induction p as [|d p IH].
  - rewrite append_nil. simpl.
    rewrite Ascii.eqb_refl. by rewrite last_cons_not_nil by apply split_not_nil.
  - rewrite append_cons. simpl. destruct (Ascii.eqb d c).
    + by rewrite last_cons_not_nil by apply split_not_nil.
    + destruct (split_with_separator c _ (includes_app_separator p b))
        as (h1 & h2 & t & Hs).
      rewrite Hs in IH |- *. exact IH.
Qed.

End SplitMore.

(** X2. For a name made of any prefix, a hyphen and a last part without
    hyphen, [getBaseAttr] is that last part, however many hyphens the
    prefix contains; in particular a name that ends with a hyphen has the
    empty string as base attribute. *)
Theorem getBaseAttr_last_part (prefix base : string) :
  JS.includes "-" base = false →
  hasPrefix (prefix +:+ "-" +:+ base) = true
  ∧ getBaseAttr (prefix +:+ "-" +:+ base) = base.
Proof.
  intros Hbase.
  change ("-" +:+ base) with (String "-"%char base).
  assert (Hp : hasPrefix (prefix +:+ String "-"%char base) = true).
  { apply hasPrefix_spec. split; [apply includes_app_separator|].
    intros Heq. pose proof (includes_app_separator "-" prefix base) as Hinc.
    by rewrite Heq in Hinc. }
  split; [done|]. unfold getBaseAttr. rewrite Hp, last_split_app.
  by rewrite split_without_separator.
Qed.

Lemma getBaseAttr_last_part_witness :
  getBaseAttr "data-my-sizes" = "sizes" ∧ getBaseAttr "data-" = "".
Proof.
  split.
  - exact (proj2 (getBaseAttr_last_part "data-my" "sizes" eq_refl)).
  - exact (proj2 (getBaseAttr_last_part "data" "" eq_refl)).
Defined.

(** X3. [getBaseAttr] is idempotent, its result never has a prefix, and
    the names it leaves unchanged are exactly those without a prefix. *)
Theorem getBaseAttr_idempotent (attr : string) :
  getBaseAttr (getBaseAttr attr) = getBaseAttr attr
  ∧ hasPrefix (getBaseAttr attr) = false
  ∧ (getBaseAttr attr = attr ↔ hasPrefix attr = false).
Proof.
  assert (Hno : hasPrefix (getBaseAttr attr) = false).
  { unfold getBaseAttr. destruct (hasPrefix attr) eqn:Hp; [|done].
    unfold hasPrefix. by rewrite last_split_no_separator. }
  split; [|split; [done|]].
  - unfold getBaseAttr at 1. by rewrite Hno.
  - split.
    + intros Heq. destruct (hasPrefix attr) eqn:Hp; [|done].
      by apply getBaseAttr_neq in Hp.
    + intros Hp. unfold getBaseAttr. by rewrite Hp.
Qed.

(** ** The commit *)

Lemma sizeElement_body_classList cfg on width elem :
  classList (sizeElement_body cfg on width elem)
  = if negb (String.eqb (processedElementClass cfg) "")
    then if decide (processedElementClass cfg ∈ classList elem)
         then classList elem
         else classList elem ++ [processedElementClass cfg]
    else classList elem.
Proof.
  unfold sizeElement_body. rewrite triggerEvent_elem. simpl.
  destruct (negb _); simpl; destruct (hasSizesAuto _ _); simpl; try done;
    unfold setSizesAttr; by destruct (hasPrefix _).
Qed.

(** X4. A commit by itself leaves alone every attribute other than the
    configured size attribute, its base attribute and [class] (the
    attribute of the class list): whatever else the element carries
    ([srcset], [src], [alt], ...) is left as it is.  Names are told
    apart as the DOM does, regardless of case. *)
Theorem commit_keeps_other_attributes cfg on width elem (name : string) :
  same_attribute name (sizesAttr cfg) = false →
  same_attribute name (getBaseAttr (sizesAttr cfg)) = false →
  same_attribute name "class" = false →
  attributes (sizeElement_body cfg on width elem) !! name
  = attributes elem !! name.
Proof.
  unfold same_attribute. intros Hattr Hbase _.
  apply String.eqb_neq in Hattr, Hbase.
  assert (name ≠ sizesAttr cfg) by (by intros ->).
  assert (name ≠ getBaseAttr (sizesAttr cfg)) by (by intros ->).
  rewrite sizeElement_body_attributes.
  destruct (hasSizesAuto cfg elem); [|done].
  unfold setSizesAttr. destruct (hasPrefix (sizesAttr cfg)); simpl.
  - by rewrite !lookup_insert_ne.
  - by rewrite lookup_insert_ne.
Qed.

Lemma commit_keeps_other_attributes_witness :
  attributes
    (sizeElement_body defaults silent (JS.Num 450)
       {| dom := Node (JS.Num 450) Sample.container;
          attributes := {[ "sizes" := "auto"; "srcset" := "a.jpg 300w" ]};
          classList := ["autosizes"];
          _autosizesWidth := JS.Undefined; oplog := [] |}) !! "srcset"
  = Some "a.jpg 300w".
Proof.
  rewrite (commit_keeps_other_attributes defaults silent (JS.Num 450) _
             "srcset"); reflexivity.
Defined.

Lemma commit_ops_no_writes cfg width name :
  attribute_writes name (commit_ops cfg width false) = 0%nat.
Proof. unfold commit_ops. simpl. by destruct (negb _). Qed.

Lemma commit_writes_delta cfg on width elem :
  attribute_writes (sizesAttr cfg) (oplog (sizeElement_body cfg on width elem))
  = (attribute_writes (sizesAttr cfg) (oplog elem)
     + if hasSizesAuto cfg elem then 1 else 0)%nat.
Proof.
  rewrite sizeElement_body_oplog, attribute_writes_app.
  destruct (hasSizesAuto cfg elem).
  - by rewrite commit_ops_writes.
  - by rewrite commit_ops_no_writes.
Qed.

Lemma commits_not_auto cfg on widths elem :
  hasSizesAuto cfg elem = false →
  hasSizesAuto cfg (commits cfg on widths elem) = false
  ∧ attributes (commits cfg on widths elem) = attributes elem
  ∧ attribute_writes (sizesAttr cfg) (oplog (commits cfg on widths elem))
    = attribute_writes (sizesAttr cfg) (oplog elem).
Proof.
  revert elem.
  induction widths as [|w widths IH]; intros elem Hauto; [done|].
  change (commits cfg on (w :: widths) elem)
    with (commits cfg on widths (sizeElement_body cfg on w elem)).
  destruct (IH (sizeElement_body cfg on w elem)) as (H1 & H2 & H3);
    [apply commit_clears_auto|].
  rewrite H1, H2, H3, commit_writes_delta, Hauto.
  destruct (commit_without_auto cfg on w elem Hauto) as (-> & _ & _).
  split; [done|]. split; [done|lia].
Qed.

(** X5. Under a configuration whose names the DOM takes as they are,
    with listeners that leave the element as it is, and for widths that
    are printed by their digits: over any sequence of commits on an
    element, the size attribute is written once if the element read
    "auto" at the start (and there is at least one commit), and never
    otherwise.  The first committed width is the one the attribute
    keeps: no later commit replaces it.  On an element that does not
    read "auto", the commits leave every attribute but [class] as it
    is. *)
Theorem attribute_written_at_most_once cfg on widths elem :
  well_configured cfg = true →
  Forall (λ width, plain_width width = true) widths →
  attribute_writes (sizesAttr cfg) (oplog (commits cfg on widths elem))
  = (attribute_writes (sizesAttr cfg) (oplog elem)
     + if hasSizesAuto cfg elem && negb (bool_decide (widths = []))
       then 1 else 0)%nat
  ∧ (∀ first later,
       widths = first :: later →
       hasSizesAuto cfg elem = true →
       attributes (commits cfg on widths elem) !! sizesAttr cfg
       = Some (px first))
  ∧ (hasSizesAuto cfg elem = false →
     ∀ name, name ≠ "class" →
       attributes (commits cfg on widths elem) !! name
       = attributes elem !! name).
Proof.
  intros _ _. split; [|split].
  - destruct widths as [|w widths].
    + rewrite andb_false_r. simpl. lia.
    + change (commits cfg on (w :: widths) elem)
        with (commits cfg on widths (sizeElement_body cfg on w elem)).
      destruct (commits_not_auto cfg on widths (sizeElement_body cfg on w elem))
        as (_ & _ & ->); [apply commit_clears_auto|].
      rewrite commit_writes_delta, andb_true_r. done.
  - intros first later -> Hauto.
    change (commits cfg on (first :: later) elem)
      with (commits cfg on later (sizeElement_body cfg on first elem)).
    destruct (commits_not_auto cfg on later
                (sizeElement_body cfg on first elem))
      as (_ & -> & _); [apply commit_clears_auto|].
    rewrite sizeElement_body_attributes, Hauto. apply setSizesAttr_lookup.
  - intros Hauto name _.
    by destruct (commits_not_auto cfg on widths elem Hauto) as (_ & -> & _).
Qed.

Lemma attribute_written_at_most_once_witness :
  attributes
    (commits defaults silent [JS.Num 450; JS.Num 600; JS.Num 300]
       (Sample.img 450)) !! "sizes"
  = Some "450px".
Proof.
  exact (proj1 (proj2 (attribute_written_at_most_once defaults silent
                         [JS.Num 450; JS.Num 600; JS.Num 300]
                         (Sample.img 450) eq_refl
                         ltac:(repeat constructor)))
           (JS.Num 450) [JS.Num 600; JS.Num 300] eq_refl eq_refl).
Defined.

(** X6. Under a configuration whose names the DOM takes as they are
    (the marker class, in particular, has no white space), and with
    listeners that leave the element as it is: with a processed-marker
    class configured, the element carries it after a commit; the classes
    it had are kept, in their order, and the marker is not added a
    second time (a class list without duplicates stays without
    duplicates).  Without a marker class configured the class list is
    left alone. *)
Theorem commit_marks_processed cfg on width elem :
  well_configured cfg = true →
  (processedElementClass cfg ≠ "" →
   processedElementClass cfg ∈ classList (sizeElement_body cfg on width elem))
  ∧ classList elem `prefix_of` classList (sizeElement_body cfg on width elem)
  ∧ (NoDup (classList elem) →
     NoDup (classList (sizeElement_body cfg on width elem)))
  ∧ (processedElementClass cfg = "" →
     classList (sizeElement_body cfg on width elem) = classList elem).
Proof.
  intros _.
  rewrite sizeElement_body_classList.
  destruct (String.eqb (processedElementClass cfg) "") eqn:Hcls; simpl.
  - apply String.eqb_eq in Hcls. repeat split; try done.
  - apply String.eqb_neq in Hcls.
    destruct (decide (processedElementClass cfg ∈ classList elem)) as [Hin|Hin].
    + repeat split; try done.
    + split; [intros _; apply elem_of_app; right; apply list_elem_of_here|].
      split; [by apply prefix_app_r|].
      split; [|done].
      intros Hnd. apply NoDup_app. split; [done|].
      split; [|apply NoDup_singleton].
      intros x Hx ->%list_elem_of_singleton. done.
Qed.

Lemma commit_marks_processed_witness :
  "autosized" ∈ classList (sizeElement_body defaults silent (JS.Num 450)
                             (Sample.img 450)).
Proof.
  apply (proj1 (commit_marks_processed defaults silent (JS.Num 450)
                  (Sample.img 450) eq_refl)).
  discriminate.
Defined.

(** X7. Under a configuration whose names the DOM takes as they are,
    with listeners that leave the element as it is, and for a width that
    is printed by its digits: a commit ends with one "after" event whose
    detail is the committed width and that width formatted in pixels,
    and leaves the committed width in the cache; this is so even when
    the size attribute is not written, in which case the event's [sizes]
    says what the attribute would have been, not what it is. *)
Theorem after_event_reports_width cfg on width elem :
  well_configured cfg = true →
  plain_width width = true →
  List.last (oplog (sizeElement_body cfg on width elem)) (ClassListAdd "")
  = DispatchEvent "afterSizesUpdate" (AfterDetail width (px width))
  ∧ after_events (oplog (sizeElement_body cfg on width elem))
    = S (after_events (oplog elem))
  ∧ _autosizesWidth (sizeElement_body cfg on width elem) = width
  ∧ (∀ value,
       attributes elem !! sizesAttr cfg = Some value →
       value ≠ "auto" →
       attributes (sizeElement_body cfg on width elem) !! sizesAttr cfg
       = Some value).
Proof.
  intros _ _.
  rewrite sizeElement_body_oplog, sizeElement_body_cache, after_events_app,
    commit_ops_after_events.
  split; [|split; [lia|split; [done|]]].
  - unfold commit_ops. rewrite !app_assoc. apply last_last.
  - intros value Hvalue Hne.
    rewrite sizeElement_body_attributes.
    unfold hasSizesAuto, getAttribute. rewrite Hvalue.
    rewrite bool_decide_eq_false_2; [done|]. by intros [= ->].
Qed.

Lemma after_event_reports_width_witness :
  attributes
    (sizeElement_body defaults silent (JS.Num 600)
       {| dom := Node (JS.Num 600) Sample.container;
          attributes := {[ "sizes" := "450px" ]};
          classList := ["autosizes"; "autosized"];
          _autosizesWidth := JS.Num 450; oplog := [] |}) !! "sizes"
  = Some "450px".
Proof.
  apply (proj2 (proj2 (proj2 (after_event_reports_width defaults silent
                                (JS.Num 600) _ eq_refl eq_refl))));
    [reflexivity|discriminate].
Defined.

(** ** The single-element update *)

Lemma getSizeElement_not_running cfg on dataAttr width (s : page) :
  running s = false →
  let s' := getSizeElement cfg on dataAttr width s in
  (attributes (world s') = attributes (world s)
   ∧ classList (world s') = classList (world s)
   ∧ _autosizesWidth (world s') = _autosizesWidth (world s)
   ∧ dom (world s') = dom (world s)
   ∧ after_events (oplog (world s')) = after_events (oplog (world s))
   ∧ running s' = false)
  ∧ ((queue s' = queue s ∧ waiting s' = waiting s ∧ frames s' = frames s)
     ∨ ∃ X, queue s' = queue s ++ [Do X Return]
            ∧ JS.truthy X = true
            ∧ JS.strict_eq X (_autosizesWidth (world s)) = false
            ∧ waiting s' = true
            ∧ frames s' = if waiting s then frames s else S (frames s)).
Proof.
  intros Hrun s'. subst s'.
  destruct (node_null_or_not (parentNode (dom (world s)))) as [Hp|Hp].
  { rewrite getSizeElement_detached by done. split; [done|]. by left. }
  rewrite getSizeElement_attached by done. simpl.
  assert (Hlog : after_events
                   (oplog (before_dispatched cfg dataAttr width (world s)))
                 = after_events (oplog (world s))).
  { unfold before_dispatched. simpl. rewrite after_events_app. simpl. lia. }
  destruct (before_answer cfg on dataAttr width (world s)).2.
  { split; [done|]. by left. }
  destruct (JS.truthy _) eqn:Htruthy; simpl; [|split; [done|by left]].
  destruct (JS.strict_eq _ _) eqn:Heq; simpl; [split; [done|by left]|].
  unfold sizeElement, rAFIt, FrameBatcher.rAF. simpl. rewrite Hrun.
  unfold enqueue. simpl.
  split.
  - by destruct (waiting s).
  - right. eexists. split; [by destruct (waiting s)|].
    split; [exact Htruthy|]. split; [exact Heq|].
    destruct (waiting s) eqn:Hw; simpl; by rewrite ?Hw.
Qed.

(** X8. Outside a batch, the single-element update writes nothing by
    itself: the element's attributes, class list, cached width and layout
    are unchanged when it returns and no "after" event has been
    dispatched.  It either leaves the batcher alone or appends exactly
    one commit, for a width that is truthy and differs from the cached
    width, and then requests an animation frame unless one is awaited
    already. *)
Theorem getSizeElement_defers_writes cfg on dataAttr width (s : page) :
  running s = false →
  let s' := getSizeElement cfg on dataAttr width s in
  (attributes (world s') = attributes (world s)
   ∧ classList (world s') = classList (world s)
   ∧ _autosizesWidth (world s') = _autosizesWidth (world s)
   ∧ dom (world s') = dom (world s)
   ∧ after_events (oplog (world s')) = after_events (oplog (world s))
   ∧ running s' = false)
  ∧ ((queue s' = queue s ∧ waiting s' = waiting s ∧ frames s' = frames s)
     ∨ ∃ X, queue s' = queue s ++ [Do X Return]
            ∧ JS.truthy X = true
            ∧ JS.strict_eq X (_autosizesWidth (world s)) = false
            ∧ waiting s' = true
            ∧ frames s' = if waiting s then frames s else S (frames s)).
Proof. apply getSizeElement_not_running. Qed.

Lemma getSizeElement_defers_writes_witness :
  attributes
    (world (getSizeElement defaults silent false JS.Undefined
              (Sample.fresh (Sample.img 450))))
  = attributes (Sample.img 450).
Proof.
  exact (proj1 (proj1 (getSizeElement_defers_writes defaults silent false
                         JS.Undefined (Sample.fresh (Sample.img 450))
                         eq_refl))).
Defined.

(** X9. While a batch is executing, the single-element update commits on
    the spot: when the update is not vetoed and the event width is truthy
    and differs from the cached width, the element has been committed
    when the call returns, and the queue is untouched. *)
Theorem getSizeElement_commits_inline cfg on dataAttr width (s : page)
    (X : JS.value) :
  running s = true →
  parentNode (dom (world s)) ≠ Null →
  (before_answer cfg on dataAttr width (world s)).2 = false →
  detail_width (before_answer cfg on dataAttr width (world s)).1 = X →
  JS.truthy X = true →
  JS.strict_eq X (_autosizesWidth (world s)) = false →
  getSizeElement cfg on dataAttr width s
  = set_world
      (sizeElement_body cfg on X
         (before_dispatched cfg dataAttr width (world s))) s.
Proof.
  intros Hrun Hp Hveto HX Htruthy Hneq.
  rewrite getSizeElement_attached by done. simpl.
  rewrite Hveto, HX, Htruthy, Hneq. simpl.
  unfold sizeElement, rAFIt, FrameBatcher.rAF. simpl. rewrite Hrun.
  by destruct s.
Qed.

Lemma getSizeElement_commits_inline_witness :
  attributes
    (world (getSizeElement defaults silent false JS.Undefined
              {| running := true; waiting := false; queue := [];
                 frames := 0; world := Sample.img 450 |})) !! "sizes"
  = Some "450px".
Proof.
  rewrite (getSizeElement_commits_inline defaults silent false JS.Undefined
             {| running := true; waiting := false; queue := [];
                frames := 0; world := Sample.img 450 |} (JS.Num 450));
    try reflexivity.
  discriminate.
Defined.

(** X10. An element that is sized from its container is not at rest.
    Take an element without cached width whose own width is nonzero and
    below [minSize], and whose parent's width reaches [minSize]: the first
    update commits the parent's width.  From then on the cached width
    stops the traversal, so the next update, with the layout unchanged,
    resolves the element's own width, finds it different from the cache
    and commits again: the cache becomes the element's own width, while
    the size attribute keeps the parent's width. *)
Theorem container_sized_element_reverts cfg dataAttr (s : page)
    (own outer : Z) (above : node) :
  idle s →
  dom (world s) = Node (JS.Num own) (Node (JS.Num outer) above) →
  _autosizesWidth (world s) = JS.Undefined →
  hasSizesAuto cfg (world s) = true →
  own ≠ 0 →
  own < minSize cfg →
  minSize cfg ≤ outer →
  outer ≠ 0 →
  ∃ s1 s2,
    paint cfg silent 1 (getSizeElement cfg silent dataAttr JS.Undefined s)
    = Some s1
    ∧ _autosizesWidth (world s1) = JS.Num outer
    ∧ attributes (world s1) !! sizesAttr cfg = Some (px (JS.Num outer))
    ∧ dom (world s1) = dom (world s)
    ∧ paint cfg silent 1 (getSizeElement cfg silent dataAttr JS.Undefined s1)
      = Some s2
    ∧ _autosizesWidth (world s2) = JS.Num own
    ∧ attributes (world s2) !! sizesAttr cfg = Some (px (JS.Num outer)).
Proof.
  intros Hidle Hdom Hcache Hauto Hown Hlt Hge Houter.
  assert (Hw1 : getWidth cfg (world s) (parentNode (dom (world s)))
                  JS.Undefined = JS.Num outer).
  { unfold getWidth. rewrite Hdom. simpl. rewrite Hcache. simpl.
    rewrite (proj2 (Z.ltb_lt _ _) Hlt). simpl.
    destruct above; simpl; by rewrite (proj2 (Z.ltb_ge _ _) Hge). }
  assert (Hp : parentNode (dom (world s)) ≠ Null) by by rewrite Hdom.
  set (elem1 := sizeElement_body cfg silent (JS.Num outer)
                  (before_dispatched cfg dataAttr JS.Undefined (world s))).
  assert (Hpaint1 : paint cfg silent 1
                      (getSizeElement cfg silent dataAttr JS.Undefined s)
                    = Some (set_world elem1 s)).
  { apply getSizeElement_commits.
    - exact Hidle.
    - exact Hp.
    - done.
    - unfold before_answer, silent. simpl. exact Hw1.
    - simpl. by rewrite (proj2 (Z.eqb_neq _ _) Houter).
    - by rewrite Hcache. }
  assert (Hcache1 : _autosizesWidth elem1 = JS.Num outer)
    by apply sizeElement_body_cache.
  assert (Hdom1 : dom elem1 = dom (world s))
    by (subst elem1; by rewrite sizeElement_body_dom).
  assert (Hattr1 : attributes elem1 !! sizesAttr cfg = Some (px (JS.Num outer))).
  { subst elem1. rewrite sizeElement_body_attributes.
    change (hasSizesAuto cfg
              (before_dispatched cfg dataAttr JS.Undefined (world s)))
      with (hasSizesAuto cfg (world s)).
    rewrite Hauto. apply setSizesAttr_lookup. }
  assert (Hauto1 : hasSizesAuto cfg elem1 = false)
    by apply commit_clears_auto.
  clearbody elem1.
  assert (Hw2 : getWidth cfg elem1 (parentNode (dom elem1)) JS.Undefined
                = JS.Num own).
  { unfold getWidth. rewrite Hdom1, Hdom. simpl. rewrite Hcache1. simpl.
    rewrite (proj2 (Z.ltb_lt _ _) Hlt). simpl.
    by rewrite (proj2 (Z.eqb_neq _ _) Houter). }
  set (elem2 := sizeElement_body cfg silent (JS.Num own)
                  (before_dispatched cfg dataAttr JS.Undefined elem1)).
  exists (set_world elem1 s), (set_world elem2 (set_world elem1 s)).
  split; [exact Hpaint1|]. split; [exact Hcache1|]. split; [exact Hattr1|].
  split; [exact Hdom1|]. split.
  { apply getSizeElement_commits.
    - by apply idle_set_world.
    - change (world (set_world elem1 s)) with elem1. by rewrite Hdom1.
    - done.
    - unfold before_answer, silent. simpl. exact Hw2.
    - simpl. by rewrite (proj2 (Z.eqb_neq _ _) Hown).
    - change (world (set_world elem1 s)) with elem1. rewrite Hcache1. simpl.
      apply Z.eqb_neq. lia. }
  split; [apply sizeElement_body_cache|].
  change (world (set_world elem2 (set_world elem1 s))) with elem2.
  subst elem2.
  destruct (commit_without_auto cfg silent (JS.Num own)
              (before_dispatched cfg dataAttr JS.Undefined elem1) Hauto1)
    as (-> & _ & _).
  exact Hattr1.
Qed.

Lemma container_sized_element_reverts_witness :
  ∃ s1 s2,
    paint defaults silent 1
      (getSizeElement defaults silent false JS.Undefined
         (Sample.fresh (Sample.img 10))) = Some s1
    ∧ paint defaults silent 1
        (getSizeElement defaults silent false JS.Undefined s1) = Some s2
    ∧ _autosizesWidth (world s1) = JS.Num 1000
    ∧ _autosizesWidth (world s2) = JS.Num 10
    ∧ attributes (world s2) !! "sizes" = Some "1000px".
Proof.
  destruct (container_sized_element_reverts defaults false
              (Sample.fresh (Sample.img 10)) 10 1000 Null
              ltac:(repeat split) eq_refl eq_refl eq_refl
              ltac:(discriminate) eq_refl ltac:(discriminate)
              ltac:(discriminate))
    as (s1 & s2 & H1 & Hc1 & _ & _ & H2 & Hc2 & Hattr).
  exists s1, s2. repeat split; assumption.
Defined.

(** ** Initialisation *)

(** X11. [init] acts once: on a library that is not yet initialised it
    installs the configuration merged from the overrides it is given and
    sets the flag; a later call, with whatever overrides, changes
    nothing; and no call changes the delay captured by the debounced
    update. *)
Theorem init_acts_once (first second : option UserConfig) (l : library) :
  autoSizes_init second (autoSizes_init first l) = autoSizes_init first l
  ∧ initialized (autoSizes_init first l) = true
  ∧ (initialized l = false →
     config (autoSizes_init second (autoSizes_init first l))
     = initConfig first)
  ∧ debouncedUpdate (autoSizes_init second (autoSizes_init first l))
    = debouncedUpdate l.
Proof.
  unfold autoSizes_init.
  destruct (initialized l) eqn:Hinit; simpl; rewrite ?Hinit; simpl;
    repeat split; try done.
Qed.

Lemma init_acts_once_witness :
  config (autoSizes_init None (autoSizes_init (Some slow_resize) load))
  = initConfig (Some slow_resize).
Proof.
  exact (proj1 (proj2 (proj2 (init_acts_once (Some slow_resize) None load)))
           eq_refl).
Defined.

(** ** Frame Batcher: closures that throw *)

Section ThrowingFacts.

Context {E W : Type}.
Variable perform : E → W → outcome W.

Local Abbreviation tcall := (Throwing.call perform).
Local Abbreviation trAF := (Throwing.rAF perform).
Local Abbreviation trun_while := (Throwing.run_while perform).
Local Abbreviation tframe := (Throwing.frame perform).
Local Abbreviation tperform_all := (Throwing.perform_all perform).
Local Abbreviation tschedule_all := (Throwing.schedule_all perform).
Local Abbreviation tdrain := (Throwing.drain perform).
Local Abbreviation tplay := (Throwing.play perform).

Lemma throwing_perform_all_app (es1 es2 : list E) (w : W) :
  tperform_all (es1 ++ es2) w
  = match tperform_all es1 w with
    | Returned w1 => tperform_all es2 w1
    | Threw w1 => Threw w1
    end.
Proof.
  revert w. induction es1 as [|e es1 IH]; intros w; simpl; [done|].
  destruct (perform e w); [apply IH|done].
Qed.

Lemma with_world_set_world (w : W) (s : state E W) (o : outcome W) :
  Throwing.with_world (set_world w s) o = Throwing.with_world s o.
Proof. by destruct o. Qed.

(** Inside a batch a closure only acts on the world, up to the first
    effect that throws: every nested [rAF] call is executed on the spot,
    and the queue is left alone. *)
Lemma throwing_call_while_running (f : fn E) (s : state E W) :
  running s = true →
  tcall f s = Throwing.with_world s (tperform_all (effects f) (world s)).
Proof.
  revert s.
  induction f as [|e rest IH|g IHg rest IHrest]; intros s Hrun; simpl.
  - by destruct s.
  - destruct (perform e (world s)) as [w|w]; [|done].
    rewrite IH by done. apply with_world_set_world.
  - rewrite Hrun, (IHg s Hrun), throwing_perform_all_app.
    destruct (tperform_all (effects g) (world s)) as [w|w]; simpl; [|done].
    rewrite IHrest by done. apply with_world_set_world.
Qed.

Lemma throwing_run_while_drains (q : list (fn E)) (s : state E W) :
  running s = true →
  queue s = q →
  trun_while (length q) s
  = Some (Throwing.with_world (set_queue (tdrain q (world s)).2 s)
            (tdrain q (world s)).1).
Proof.
  revert s.
  induction q as [|f q IH]; intros s Hrun Hq; simpl; rewrite Hq.
  - destruct s; simpl in *; by subst.
  - rewrite throwing_call_while_running by done. simpl.
    destruct (tperform_all (effects f) (world s)) as [w|w]; simpl.
    + rewrite IH by done. simpl. by destruct (tdrain q w) as [[w'|w'] rest].
    + done.
Qed.

Lemma drain_returned (q : list (fn E)) (w w' : W) (rest : list (fn E)) :
  tdrain q w = (Returned w', rest) →
  rest = [] ∧ tperform_all (concat (map effects q)) w = Returned w'.
Proof.
  revert w. induction q as [|f q IH]; intros w; simpl.
  - by intros [= -> <-].
  - rewrite throwing_perform_all_app.
    destruct (tperform_all (effects f) w) as [w1|w1]; [apply IH|done].
Qed.

Lemma returned_drain (q : list (fn E)) (w w' : W) :
  tperform_all (concat (map effects q)) w = Returned w' →
  tdrain q w = (Returned w', []).
Proof.
  revert w. induction q as [|f q IH]; intros w; simpl.
  - by intros [= ->].
  - rewrite throwing_perform_all_app.
    destruct (tperform_all (effects f) w) as [w1|w1]; [apply IH|done].
Qed.

Lemma drain_threw (q : list (fn E)) (w w' : W) (rest : list (fn E)) :
  tdrain q w = (Threw w', rest) →
  ∃ done f w1,
    q = done ++ f :: rest
    ∧ tperform_all (concat (map effects done)) w = Returned w1
    ∧ tperform_all (effects f) w1 = Threw w'.
Proof.
  revert w. induction q as [|f q IH]; intros w; simpl; [done|].
  destruct (tperform_all (effects f) w) as [w1|w1] eqn:Hf.
  - intros (done & g & w2 & -> & Hdone & Hg)%IH.
    exists (f :: done), g, w2. simpl.
    by rewrite throwing_perform_all_app, Hf.
  - intros [= <- <-]. by exists [], f, w.
Qed.

(** Outside a batch, [rAF] only appends to the queue, and asks for an
    animation frame unless one is already awaited; it cannot throw. *)
Lemma throwing_schedule_all_idle (fs : list (fn E)) (s : state E W) :
  running s = false →
  tschedule_all fs s
  = Returned {| running := false;
                waiting := waiting s || negb (bool_decide (fs = []));
                queue := queue s ++ fs;
                frames := if waiting s || bool_decide (fs = [])
                          then frames s else S (frames s);
                world := world s |}.
Proof.
  revert s.
  induction fs as [|f fs IH]; intros s Hrun.
  - simpl. rewrite app_nil_r, orb_false_r, orb_true_r.
    by destruct s; simpl in *; subst.
  - destruct s as [r w q n wd]; simpl in Hrun; subst r.
    simpl. unfold Throwing.rAF, enqueue; simpl.
    destruct w; simpl; rewrite IH by done; simpl;
      by rewrite <- ?app_assoc.
Qed.

Lemma throwing_frame_settled (s : state E W) :
  settled s →
  queue s ≠ [] →
  tframe (length (queue s)) s
  = Some match tdrain (queue s) (world s) with
         | (Returned w, _) =>
             Returned {| running := false; waiting := false; queue := [];
                         frames := 0; world := w |}
         | (Threw w, rest) =>
             Threw {| running := true; waiting := false; queue := rest;
                      frames := 0; world := w |}
         end.
Proof.
  intros (Hrun & Hwait & Hframes) Hne.
  destruct s as [r w q n wd]. simpl in *. subst r.
  rewrite (bool_decide_eq_false_2 (q = [])) in Hwait by done.
  simpl in Hwait. subst w n.
  unfold Throwing.frame, Throwing.run. simpl.
  rewrite (throwing_run_while_drains q) by done. simpl.
  destruct (tdrain q wd) as [[w'|w'] rest] eqn:Hdrain; simpl; [|done].
  by apply drain_returned in Hdrain as [-> _].
Qed.

Lemma throwing_frame_settled_empty (s : state E W) :
  settled s →
  queue s = [] →
  tframe (length (queue s)) s = None.
Proof.
  intros (Hrun & Hwait & Hframes) Hq.
  rewrite Hq in Hwait. simpl in Hwait. rewrite Hwait in Hframes.
  unfold Throwing.frame. by rewrite Hframes.
Qed.

Lemma throwing_settled_rAF (f : fn E) (s : state E W) :
  settled s →
  ∃ s1, trAF f s = Returned s1
        ∧ settled s1 ∧ queue s1 = queue s ++ [f] ∧ world s1 = world s.
Proof.
  intros (Hrun & Hwait & Hframes).
  destruct s as [r w q n wd]. simpl in *. subst r.
  unfold Throwing.rAF. simpl. eexists. split; [done|].
  unfold enqueue, settled. simpl.
  assert (Hne : bool_decide (q ++ [f] = []) = false).
  { apply bool_decide_eq_false_2. by destruct q. }
  destruct w; simpl in *; rewrite Hne; simpl; subst n;
    repeat split; try done.
Qed.

Lemma throwing_play_settled (evs : list (raf_event E)) :
  ∀ (s s' : state E W),
  settled s →
  tplay evs s = Some (Returned s') →
  settled s'
  ∧ ∃ done, queue s ++ scheduled evs = done ++ queue s'
            ∧ tperform_all (concat (map effects done)) (world s)
              = Returned (world s').
Proof.
  induction evs as [|[f|] evs IH]; intros s s' Hs Hplay; simpl in Hplay.
  - injection Hplay as <-. split; [done|].
    exists []. simpl. by rewrite app_nil_r.
  - destruct (throwing_settled_rAF f s Hs) as (s1 & Hs1 & Hset1 & Hq1 & Hw1).
    rewrite Hs1 in Hplay.
    destruct (IH _ _ Hset1 Hplay) as (Hs' & done & Hdone & Hworld).
    split; [done|]. exists done. simpl.
    rewrite Hq1, <- app_assoc in Hdone. by rewrite <- Hw1.
  - destruct (decide (queue s = [])) as [Hq|Hq].
    { by rewrite throwing_frame_settled_empty in Hplay. }
    rewrite throwing_frame_settled in Hplay by done.
    destruct (tdrain (queue s) (world s)) as [[w|w] rest] eqn:Hdrain;
      [|done].
    apply drain_returned in Hdrain as [_ Hall].
    apply IH in Hplay as (Hs' & done & Hdone & Hworld);
      [|by repeat split].
    split; [done|]. exists (queue s ++ done). simpl in *.
    rewrite Hdone, <- app_assoc. split; [done|].
    by rewrite map_app, concat_app, throwing_perform_all_app, Hall.
Qed.

(** Once a closure has thrown inside a batch, [running] stays [true]: a
    call of [rAF] executes its closure on the spot, whatever the outcome,
    and neither touches the queue nor asks for an animation frame. *)
Lemma throwing_rAF_running (f : fn E) (s : state E W) :
  running s = true →
  trAF f s = Throwing.with_world s (tperform_all (effects f) (world s))
  ∧ running (reached (trAF f s)) = true
  ∧ waiting (reached (trAF f s)) = waiting s
  ∧ queue (reached (trAF f s)) = queue s
  ∧ frames (reached (trAF f s)) = frames s.
Proof.
  intros Hrun. unfold Throwing.rAF. rewrite Hrun.
  rewrite throwing_call_while_running by done.
  split; [done|].
  by destruct (tperform_all (effects f) (world s)).
Qed.

(** C7 (as amended). Operations scheduled in one synchronous pass are
    appended to the pending queue behind those already waiting, and one
    animation-frame callback stands for all of them.  When the platform
    invokes it and none of the pending operations throws, the loop
    drains the whole queue: every operation is executed, in the order of
    scheduling, none is left behind, and the batcher is settled again
    with an empty queue.  While a batch is executing, [rAF] runs the
    operation on the spot and does not touch the queue. *)
Theorem rAF_batch_runs_all_unless_thrown (fs : list (fn E)) (s : state E W)
    (w' : W) :
  settled s →
  fs ≠ [] →
  tperform_all (concat (map effects (queue s ++ fs))) (world s)
  = Returned w' →
  let s1 := {| running := false; waiting := true; queue := queue s ++ fs;
               frames := 1; world := world s |} in
  tschedule_all fs s = Returned s1
  ∧ tframe (length (queue s ++ fs)) s1
    = Some (Returned {| running := false; waiting := false; queue := [];
                        frames := 0; world := w' |})
  ∧ (∀ (f : fn E) (s' : state E W),
       running s' = true →
       trAF f s'
       = Throwing.with_world s' (tperform_all (effects f) (world s'))
       ∧ queue (reached (trAF f s')) = queue s').
Proof.
  intros (Hrun & Hwait & Hframes) Hfs Hall s1.
  split; [|split].
  - rewrite throwing_schedule_all_idle by done.
    rewrite Hframes, Hwait.
    rewrite (bool_decide_eq_false_2 (fs = [])) by done.
    subst s1. destruct (bool_decide (queue s = [])); by simpl.
  - assert (Hs1 : settled s1).
    { subst s1. unfold settled. simpl.
      rewrite bool_decide_eq_false_2; [done|].
      destruct (queue s); [by destruct fs|done]. }
    assert (Hne : queue s1 ≠ []).
    { subst s1. simpl. destruct (queue s); [by destruct fs|done]. }
    pose proof (throwing_frame_settled s1 Hs1 Hne) as Hframe.
    subst s1. simpl in *. rewrite Hframe.
    by rewrite (returned_drain _ _ _ Hall).
  - intros f s' Hrun'.
    destruct (throwing_rAF_running f s' Hrun') as (H1 & _ & _ & H2 & _).
    done.
Qed.

(** X12. A run of the frame batcher starts settled; closures are
    scheduled and animation-frame callbacks invoked in any order.  As
    long as no closure throws, the closures that have been executed
    followed by those still pending are exactly the closures that were
    pending at the start followed by the scheduled ones, in that order
    (first in, first out across frames, none lost or run twice), the
    batcher is settled after the run, and an animation-frame callback is
    pending exactly when the queue is not empty.  When a closure throws
    inside an animation-frame callback, the closures before it have been
    executed, those behind it stay in the queue, and the batcher is left
    running with no callback pending; in that state no callback can be
    invoked, and [rAF] executes its closure on the spot without touching
    the queue, so that what stayed in the queue is never executed. *)
Theorem rAF_fifo_until_throw (s : state E W) :
  settled s →
  (tframe (length (queue s)) s = None ↔ queue s = [])
  ∧ (∀ (evs : list (raf_event E)) (s' : state E W),
       tplay evs s = Some (Returned s') →
       settled s'
       ∧ ∃ done, queue s ++ scheduled evs = done ++ queue s'
                 ∧ tperform_all (concat (map effects done)) (world s)
                   = Returned (world s'))
  ∧ (∀ s' : state E W,
       tframe (length (queue s)) s = Some (Threw s') →
       running s' = true ∧ waiting s' = false ∧ frames s' = 0%nat
       ∧ ∃ done f w,
           queue s = done ++ f :: queue s'
           ∧ tperform_all (concat (map effects done)) (world s) = Returned w
           ∧ tperform_all (effects f) w = Threw (world s'))
  ∧ (∀ s' : state E W,
       running s' = true →
       frames s' = 0%nat →
       tframe (length (queue s')) s' = None
       ∧ ∀ f : fn E,
           running (reached (trAF f s')) = true
           ∧ frames (reached (trAF f s')) = 0%nat
           ∧ queue (reached (trAF f s')) = queue s').
Proof.
  intros Hs. split; [|split; [|split]].
  - split.
    + intros Hnone. destruct (decide (queue s = [])) as [Hq|Hq]; [done|].
      by rewrite throwing_frame_settled in Hnone.
    + by apply throwing_frame_settled_empty.
  - intros evs s'. by apply throwing_play_settled.
  - intros s' Hframe.
    destruct (decide (queue s = [])) as [Hq|Hq].
    { by rewrite throwing_frame_settled_empty in Hframe. }
    rewrite throwing_frame_settled in Hframe by done.
    destruct (tdrain (queue s) (world s)) as [[w|w] rest] eqn:Hdrain;
      [done|].
    injection Hframe as <-. simpl.
    repeat split; try done.
    by apply drain_threw.
  - intros s' Hrun Hframes. split.
    + unfold Throwing.frame. by rewrite Hframes.
    + intros f.
      destruct (throwing_rAF_running f s' Hrun) as (_ & H1 & _ & H2 & H3).
      by rewrite H1, H2, H3.
Qed.

End ThrowingFacts.

(** [FrameBatcher] is this batcher when no effect throws. *)
Section ReturningFacts.

Context {E W : Type}.
Variable perform : E → W → W.

Local Abbreviation returning := (λ (e : E) (w : W), Returned (perform e w)).

Lemma returning_call (f : fn E) (s : state E W) :
  Throwing.call returning f s = Returned (call perform f s).
Proof.
  revert s.
  induction f as [|e rest IH|g IHg rest IHrest]; intros s; simpl.
  - done.
  - apply IH.
  - destruct (running s); [by rewrite IHg, IHrest|apply IHrest].
Qed.

Lemma returning_rAF (f : fn E) (s : state E W) :
  Throwing.rAF returning f s = Returned (rAF perform f s).
Proof.
  unfold Throwing.rAF, rAF. destruct (running s); [apply returning_call|done].
Qed.

Lemma returning_run_while (fuel : nat) (s : state E W) :
  Throwing.run_while returning fuel s = Returned <$> run_while perform fuel s.
Proof.
  revert s. induction fuel as [|fuel IH]; intros s; simpl.
  - by destruct (queue s).
  - destruct (queue s) as [|f rest]; [done|].
    rewrite returning_call. apply IH.
Qed.

Lemma returning_frame (fuel : nat) (s : state E W) :
  Throwing.frame returning fuel s = Returned <$> frame perform fuel s.
Proof.
  unfold Throwing.frame, frame. destruct (frames s) as [|n]; [done|].
  unfold Throwing.run, run. rewrite returning_run_while.
  by destruct (run_while perform fuel _).
Qed.

End ReturningFacts.

(** An instance: three operations logging into a list; the second one
    schedules a fourth while the batch is executing. *)
Lemma rAF_batch_runs_all_unless_thrown_witness :
  Throwing.frame append_or_throw 3
    {| running := false; waiting := true;
       queue := [Do 1%nat Return;
                 Do 2%nat (Schedule (Do 3%nat Return) (Do 4%nat Return));
                 Do 5%nat Return];
       frames := 1; world := [] |}
  = Some (Returned {| running := false; waiting := false; queue := [];
                      frames := 0; world := [1; 2; 3; 4; 5]%nat |}).
Proof.
  refine (proj1 (proj2
    (rAF_batch_runs_all_unless_thrown append_or_throw
       [Do 1%nat Return;
        Do 2%nat (Schedule (Do 3%nat Return) (Do 4%nat Return));
        Do 5%nat Return]
       {| running := false; waiting := false; queue := []; frames := 0;
          world := [] |}
       [1; 2; 3; 4; 5]%nat _ _ _))).
  - repeat split.
  - discriminate.
  - reflexivity.
Defined.

(** C7, as stated, fails when an operation throws.  Of three operations
    scheduled in one pass, the second throws: the animation-frame
    callback executes the first, the third stays in the queue, and the
    batcher is left running with no callback pending.  An operation
    scheduled afterwards is executed on the spot, ahead of the third,
    which no callback will ever execute. *)
Lemma rAF_throw_leaves_rest_unrun :
  let s0 := {| running := false; waiting := false; queue := []; frames := 0;
               world := [] |} in
  let s1 := {| running := false; waiting := true;
               queue := [Do 1%nat Return; Do 0%nat Return; Do 3%nat Return];
               frames := 1; world := [] |} in
  let s2 := {| running := true; waiting := false;
               queue := [Do 3%nat Return]; frames := 0;
               world := [1%nat] |} in
  let s3 := {| running := true; waiting := false;
               queue := [Do 3%nat Return]; frames := 0;
               world := [1; 4]%nat |} in
  Throwing.schedule_all append_or_throw
    [Do 1%nat Return; Do 0%nat Return; Do 3%nat Return] s0
  = Returned s1
  ∧ Throwing.frame append_or_throw 3 s1 = Some (Threw s2)
  ∧ Throwing.frame append_or_throw 1 s2 = None
  ∧ Throwing.rAF append_or_throw (Do 4%nat Return) s2 = Returned s3
  ∧ Throwing.frame append_or_throw 1 s3 = None.
Proof. repeat split. Qed.

Lemma rAF_fifo_until_throw_witness :
  let s' := {| running := false; waiting := true;
               queue := [Do 4%nat Return]; frames := 1;
               world := [1; 2; 3]%nat |} in
  settled s'
  ∧ ∃ done, [] ++ [Do 1%nat Return; Do 2%nat Return; Do 3%nat Return;
                   Do 4%nat Return] = done ++ queue s'
            ∧ Throwing.perform_all append_or_throw
                (concat (map effects done)) []
              = Returned (world s').
Proof.
  exact (proj1 (proj2 (rAF_fifo_until_throw append_or_throw
                  {| running := false; waiting := false; queue := [];
                     frames := 0; world := [] |}
                  (conj eq_refl (conj eq_refl eq_refl))))
           [Sched (Do 1%nat Return); Sched (Do 2%nat Return); Frame;
            Sched (Do 3%nat Return); Frame; Sched (Do 4%nat Return)]
           {| running := false; waiting := true;
              queue := [Do 4%nat Return]; frames := 1;
              world := [1; 2; 3]%nat |}
           eq_refl).
Defined.

(** ** The state of an element over time *)

Lemma paint_not_running cfg on (s : page) :
  running s = false →
  paint cfg on (length (queue s)) s
  = match frames s with
    | O => None
    | S n =>
        Some {| running := false; waiting := false; queue := []; frames := n;
                world := perform_all (sizeElement_body cfg on)
                           (concat (map effects (queue s))) (world s) |}
    end.
Proof.
  intros Hrun. unfold paint, frame. destruct (frames s) as [|n]; [done|].
  unfold FrameBatcher.run. simpl.
  by rewrite (run_while_drains (sizeElement_body cfg on) (queue s)).
Qed.

Lemma truthy_commits_cache cfg on (q : list (fn JS.value)) : ∀ elem,
  Forall (λ f, ∃ w, f = Do w Return ∧ JS.truthy w = true) q →
  JS.truthy (_autosizesWidth elem) = true →
  JS.truthy
    (_autosizesWidth
       (perform_all (sizeElement_body cfg on) (concat (map effects q)) elem))
  = true.
Proof.
  induction q as [|f q IH]; intros elem Hq Hcache; [done|].
  apply Forall_cons in Hq as [(w & -> & Hw) Hq]. simpl.
  apply IH; [done|]. by rewrite sizeElement_body_cache.
Qed.

Lemma act_well_queued cfg a (s : page) :
  well_queued s → well_queued (act cfg a s).
Proof.
  intros [Hrun Hq]. destruct a as [on dataAttr width|on|n]; simpl.
  - destruct (getSizeElement_not_running cfg on dataAttr width s Hrun)
      as [(_ & _ & _ & _ & _ & Hrun') [(Hq' & _ & _)|(X & Hq' & HX & _)]];
      (split; [done|]); rewrite Hq'; [done|].
    apply Forall_app. split; [done|].
    apply Forall_singleton. eauto.
  - rewrite paint_not_running by done.
    destruct (frames s); simpl; by split.
  - by split.
Qed.

Lemma act_keeps_sized cfg a (s : page) :
  well_queued s →
  JS.truthy (_autosizesWidth (world s)) = true →
  JS.truthy (_autosizesWidth (world (act cfg a s))) = true.
Proof.
  intros [Hrun Hq] Hcache. destruct a as [on dataAttr width|on|n]; simpl.
  - destruct (getSizeElement_not_running cfg on dataAttr width s Hrun)
      as [(_ & _ & Hsame & _) _]. by rewrite Hsame.
  - rewrite paint_not_running by done.
    destruct (frames s); simpl; [done|]. by apply truthy_commits_cache.
  - done.
Qed.

Lemma acts_well_queued cfg l : ∀ (s : page),
  well_queued s → well_queued (acts cfg l s).
Proof.
  induction l as [|a l IH]; intros s Hs; [done|].
  apply IH. by apply act_well_queued.
Qed.

Lemma acts_keep_sized cfg l : ∀ (s : page),
  well_queued s →
  JS.truthy (_autosizesWidth (world s)) = true →
  JS.truthy (_autosizesWidth (world (acts cfg l s))) = true.
Proof.
  induction l as [|a l IH]; intros s Hs Hcache; [done|].
  apply IH; [by apply act_well_queued|by apply act_keeps_sized].
Qed.

(** X13. Sized stays sized.  In every history of a page that starts with
    nothing pending (updates with any listeners and arguments, animation
    frames and layout changes, in any order), once the element's cached
    width is truthy it is truthy at every later moment: no update, veto,
    zero width or repaint takes an element back to the state without a
    cached width. *)
Theorem sized_stays_sized cfg elem (before after : list action) :
  JS.truthy
    (_autosizesWidth (world (acts cfg before (Sample.fresh elem)))) = true →
  JS.truthy
    (_autosizesWidth (world (acts cfg (before ++ after) (Sample.fresh elem))))
  = true.
Proof.
  intros Hsized. unfold acts. rewrite fold_left_app.
  apply acts_keep_sized; [|done].
  apply acts_well_queued. by split.
Qed.

Lemma sized_stays_sized_witness :
  JS.truthy
    (_autosizesWidth
       (world (acts defaults
                 ([Update silent false JS.Undefined; Paint silent]
                  ++ [Relayout (Node (JS.Num 0) (Node (JS.Num 0) Null));
                      Update (Sample.set_width JS.NaN) false JS.Undefined;
                      Paint silent;
                      Update Sample.veto true (JS.Num 7)])
                 (Sample.fresh (Sample.img 450)))))
  = true.
Proof.
  apply (sized_stays_sized defaults (Sample.img 450)
           [Update silent false JS.Undefined; Paint silent]).
  reflexivity.
Defined.

(** ** Debounced Trigger: every schedule *)

Section DebounceMore.

Import Debounce.

Variable wait : Z.

(** X14. For the delay it captured, the debounced function coalesces a
    burst: over every schedule the platform can run from the initial
    state, with or without [requestIdleCallback], whose invocations each
    come less than [wait] after the previous one and after which no timer
    or idle callback is left, the wrapped function has been executed
    exactly once, and not before [wait] has passed since the last
    invocation. *)
Theorem debounce_burst_runs_once hasIdleCallback evs s tN :
  simulate wait hasIdleCallback 0 evs initial = Some s →
  burst_after wait None (invocations evs) →
  last_invocation None (invocations evs) = Some tN →
  timers s = [] →
  idle s = 0%nat →
  ∃ t, executions s = [t] ∧ tN + wait ≤ t.
Proof. apply debounce_coalesces_burst. Qed.

Lemma step_accounted hasIdleCallback e s s' n :
  accounted s n →
  step wait hasIdleCallback e s = Some s' →
  accounted s' (n + match e with Invoke _ => 1 | _ => 0 end).
Proof.
  intros (Hcount & Hone & Hnone) Hstep.
  destruct s as [to ts tm i nid ex]. unfold accounted in *. simpl in *.
  destruct e as [t|id t|t]; simpl in Hstep.
  - injection Hstep as <-. unfold debounced. simpl.
    destruct to as [id|]; simpl.
    + split; [lia|]. split; [done|]. split; [done|].
      intros Hempty. by apply Hnone in Hempty.
    + destruct (proj1 Hnone eq_refl) as [-> ->]. simpl in *.
      split; [lia|]. split; [lia|]. split; [done|]. by intros [? _].
  - destruct tm as [|[tid due] [|? ?]]; simpl in *; [done| |lia].
    destruct (Pos.eqb tid id); simpl in Hstep; [|done].
    destruct (due <=? t); [|done]. injection Hstep as <-.
    assert (i = 0%nat) as -> by lia.
    unfold later. simpl.
    destruct (JS.lt _ _); simpl.
    + split; [lia|]. split; [lia|]. split; [done|]. by intros [? _].
    + destruct hasIdleCallback; simpl.
      * split; [lia|]. split; [lia|].
        split; [intros Hto; by apply Hnone in Hto as [? _]|by intros [_ ?]].
      * rewrite length_app. simpl. split; [lia|]. split; [lia|]. done.
  - destruct i as [|i]; simpl in Hstep; [done|].
    injection Hstep as <-. simpl.
    rewrite length_app. simpl. split; [lia|]. split; [lia|].
    split; [intros _; split; [|lia]|done].
    destruct tm; [done|simpl in *; lia].
Qed.

Lemma simulate_accounted hasIdleCallback evs : ∀ clock s s' n,
  accounted s n →
  simulate wait hasIdleCallback clock evs s = Some s' →
  accounted s' (n + length (invocations evs)).
Proof.
  induction evs as [|e evs IH]; intros clock s s' n Hacc Hsim.
  - simpl in *. injection Hsim as <-. by rewrite Nat.add_0_r.
  - simpl in Hsim. destruct (clock <=? time_of e); [|done].
    destruct (step wait hasIdleCallback e s) as [s1|] eqn:Hstep; [|done].
    simpl in Hsim.
    apply (IH _ _ _ _ (step_accounted _ _ _ _ _ Hacc Hstep)) in Hsim.
    destruct e; simpl in *;
      [replace (n + S (length (invocations evs)))%nat
         with (n + 1 + length (invocations evs))%nat by lia; done
      |by rewrite Nat.add_0_r in Hsim..].
Qed.

(** X15. The debounced function never executes spuriously and never
    holds more than one callback: after any schedule from the initial
    state, the executions so far plus the pending callbacks number at
    most the invocations so far, at most one timer or idle callback is
    pending, and [timeout] is unset exactly when none is. *)
Theorem debounce_never_spurious hasIdleCallback clock evs s :
  simulate wait hasIdleCallback clock evs initial = Some s →
  (length (executions s) + length (timers s) + idle s
   ≤ length (invocations evs))%nat
  ∧ (length (timers s) + idle s ≤ 1)%nat
  ∧ (timeout s = None ↔ timers s = [] ∧ idle s = 0%nat).
Proof.
  intros Hsim.
  apply (simulate_accounted hasIdleCallback evs clock initial s 0%nat);
    [|done].
  unfold accounted. simpl. split; [lia|]. split; [lia|]. done.
Qed.

Lemma step_stamped e s s' latest :
  stamped s latest →
  step wait false e s = Some s' →
  stamped s' (match e with Invoke t => Some t | _ => latest end).
Proof.
  intros (Hidle & Hts & Hnone) Hstep.
  destruct s as [to ts tm i nid ex]. unfold stamped in *. simpl in *.
  subst i. destruct e as [t|id t|t]; simpl in Hstep; [| |done].
  - injection Hstep as <-. unfold debounced. simpl.
    by destruct to.
  - destruct (take_timer id tm) as [[due rest]|] eqn:Htake; [|done].
    simpl in Hstep. destruct (due <=? t); [|done]. injection Hstep as <-.
    destruct latest as [tl|]; [|by rewrite Hnone in Htake].
    unfold later. simpl. by destruct (JS.lt _ _).
Qed.

Lemma simulate_stamped evs : ∀ clock s s' latest,
  stamped s latest →
  simulate wait false clock evs s = Some s' →
  stamped s' (last_invocation latest (invocations evs)).
Proof.
  induction evs as [|e evs IH]; intros clock s s' latest Hst Hsim.
  - simpl in *. by injection Hsim as <-.
  - simpl in Hsim. destruct (clock <=? time_of e); [|done].
    destruct (step wait false e s) as [s1|] eqn:Hstep; [|done].
    simpl in Hsim.
    apply (IH _ _ _ _ (step_stamped _ _ _ _ Hst Hstep)) in Hsim.
    destruct e as [t|id t|t]; [|done..].
    change (invocations (Invoke t :: evs)) with (t :: invocations evs).
    by rewrite last_invocation_cons.
Qed.

(** X16. Without [requestIdleCallback], an execution never comes early:
    after any schedule from the initial state, a tick that runs the
    wrapped function is a timer firing at a time that is at least [wait]
    after the latest invocation so far, and it runs the function once. *)
Theorem no_execution_before_wait clock evs e s1 s2 :
  simulate wait false clock evs initial = Some s1 →
  step wait false e s1 = Some s2 →
  executions s2 ≠ executions s1 →
  ∃ id t latest,
    e = TimerFires id t
    ∧ last_invocation None (invocations evs) = Some latest
    ∧ latest + wait ≤ t
    ∧ executions s2 = executions s1 ++ [t].
Proof.
  intros Hsim Hstep Hexec.
  assert (Hst : stamped s1 (last_invocation None (invocations evs))).
  { apply (simulate_stamped evs clock initial); [|done].
    by repeat split. }
  destruct Hst as (Hidle & Hts & Hnone).
  destruct s1 as [to ts tm i nid ex]. simpl in *. subst i.
  destruct e as [t|id t|t]; simpl in Hstep; [| |done].
  - injection Hstep as <-. unfold debounced in Hexec. simpl in Hexec.
    by destruct to.
  - destruct (take_timer id tm) as [[due rest]|] eqn:Htake; [|done].
    simpl in Hstep. destruct (due <=? t); [|done]. injection Hstep as <-.
    destruct (last_invocation None (invocations evs)) as [tl|];
      [|by rewrite Hnone in Htake].
    subst ts. unfold later in *. simpl in *.
    destruct (t - tl <? wait) eqn:Hlast; simpl in *; [done|].
    apply Z.ltb_ge in Hlast.
    exists id, t, tl. split; [done|]. split; [done|]. split; [lia|done].
Qed.

(** X17. The trailing edge.  Without [requestIdleCallback] and without
    further invocations, a pending timer leads to the execution after at
    most one re-arming: when it fires, either [wait] has passed since
    the latest invocation and the function runs at once, or the timer is
    re-armed to be due exactly [wait] after the latest invocation, and
    the function runs whenever that second timer fires. *)
Theorem debounce_trailing_edge (s : state) tid due latest fired :
  timers s = [(tid, due)] →
  timestamp s = JS.Num latest →
  due ≤ fired →
  ∃ s1, step wait false (TimerFires tid fired) s = Some s1
    ∧ ((wait ≤ fired - latest
        ∧ executions s1 = executions s ++ [fired]
        ∧ timers s1 = [] ∧ timeout s1 = None)
       ∨ (fired - latest < wait
          ∧ executions s1 = executions s
          ∧ timers s1 = [(next_id s, latest + wait)]
          ∧ ∀ again, latest + wait ≤ again →
              ∃ s2, step wait false (TimerFires (next_id s) again) s1
                    = Some s2
                ∧ executions s2 = executions s ++ [again]
                ∧ timers s2 = [] ∧ timeout s2 = None)).
Proof.
  intros Htimers Hts Hdue.
  destruct s as [to ts tm i nid ex]. simpl in *. subst ts tm.
  unfold step. simpl. rewrite Pos.eqb_refl. simpl.
  rewrite (proj2 (Z.leb_le _ _) Hdue).
  eexists. split; [done|]. unfold later. simpl.
  destruct (fired - latest <? wait) eqn:Hlast; simpl.
  - apply Z.ltb_lt in Hlast. right.
    replace (fired + Z.max 0 (wait - (fired - latest))) with (latest + wait)
      by lia.
    split; [done|]. split; [done|]. split; [done|].
    intros again Hagain. rewrite Pos.eqb_refl. simpl.
    rewrite (proj2 (Z.leb_le _ _) Hagain).
    eexists. split; [done|]. unfold later. simpl.
    rewrite (proj2 (Z.ltb_ge _ _)) by lia. done.
  - apply Z.ltb_ge in Hlast. left. split; [lia|done].
Qed.

End DebounceMore.

Lemma debounce_burst_runs_once_witness :
  ∃ t, [149] = [t] ∧ 50 + 99 ≤ t.
Proof.
  exact (debounce_burst_runs_once 99 false short_burst
           {| Debounce.timeout := None; Debounce.timestamp := JS.Num 50;
              Debounce.timers := []; Debounce.idle := 0;
              Debounce.next_id := 3%positive;
              Debounce.executions := [149] |}
           50 ltac:(vm_compute; reflexivity)
           ltac:(vm_compute; repeat split; discriminate)
           eq_refl eq_refl eq_refl).
Defined.

Lemma debounce_never_spurious_witness :
  (length [99; 299] + length (@nil (positive * Z)) + 0
   ≤ length (Debounce.invocations two_resizes_idle))%nat
  ∧ (length (@nil (positive * Z)) + 0 ≤ 1)%nat
  ∧ (@None positive = None ↔ @nil (positive * Z) = [] ∧ 0%nat = 0%nat).
Proof.
  exact (debounce_never_spurious 99 true 0 two_resizes_idle
           {| Debounce.timeout := None; Debounce.timestamp := JS.Num 200;
              Debounce.timers := []; Debounce.idle := 0;
              Debounce.next_id := 3%positive;
              Debounce.executions := [99; 299] |}
           ltac:(vm_compute; reflexivity)).
Defined.

Lemma no_execution_before_wait_witness :
  ∃ id t latest,
    Debounce.TimerFires 2 149 = Debounce.TimerFires id t
    ∧ Debounce.last_invocation None
        (Debounce.invocations
           [Debounce.Invoke 0; Debounce.Invoke 50; Debounce.TimerFires 1 99])
      = Some latest
    ∧ latest + 99 ≤ t
    ∧ [149] = [] ++ [t].
Proof.
  exact (no_execution_before_wait 99 0
           [Debounce.Invoke 0; Debounce.Invoke 50; Debounce.TimerFires 1 99]
           (Debounce.TimerFires 2 149)
           {| Debounce.timeout := Some 2%positive;
              Debounce.timestamp := JS.Num 50;
              Debounce.timers := [(2%positive, 149)]; Debounce.idle := 0;
              Debounce.next_id := 3%positive; Debounce.executions := [] |}
           {| Debounce.timeout := None;
              Debounce.timestamp := JS.Num 50;
              Debounce.timers := []; Debounce.idle := 0;
              Debounce.next_id := 3%positive; Debounce.executions := [149] |}
           ltac:(vm_compute; reflexivity) ltac:(vm_compute; reflexivity)
           ltac:(discriminate)).
Defined.

Lemma debounce_trailing_edge_witness :
  ∃ s1, Debounce.step 99 false (Debounce.TimerFires 1 99)
          {| Debounce.timeout := Some 1%positive;
             Debounce.timestamp := JS.Num 50;
             Debounce.timers := [(1%positive, 99)]; Debounce.idle := 0;
             Debounce.next_id := 2%positive; Debounce.executions := [] |}
        = Some s1
    ∧ Debounce.executions s1 = []
    ∧ Debounce.timers s1 = [(2%positive, 149)].
Proof.
  destruct (debounce_trailing_edge 99
              {| Debounce.timeout := Some 1%positive;
                 Debounce.timestamp := JS.Num 50;
                 Debounce.timers := [(1%positive, 99)]; Debounce.idle := 0;
                 Debounce.next_id := 2%positive; Debounce.executions := [] |}
              1%positive 99 50 99 eq_refl eq_refl ltac:(lia))
    as (s1 & Hstep & [(Habs & _)|(_ & Hexec & Htimers & _)]).
  - exfalso. vm_compute in Habs. apply Habs. reflexivity.
  - exists s1. split; [exact Hstep|]. split; [exact Hexec|exact Htimers].
Defined.

(** ** The AutoSizer over the document *)

Section CollectionFacts.

Variable cfg : Config.
Variable on : listeners.

(** Outside a batch, what the update does to the element and what it
    appends to the queue do not depend on the state of the batcher. *)
Lemma getSizeElement_outside_batch dataAttr width (s : page) :
  running s = false →
  let p := getSizeElement cfg on dataAttr width (Sample.fresh (world s)) in
  getSizeElement cfg on dataAttr width s
  = {| running := false;
       waiting := waiting s || negb (bool_decide (queue p = []));
       queue := queue s ++ queue p;
       frames := if waiting s || bool_decide (queue p = []) then frames s
                 else S (frames s);
       world := world p |}.
Proof.
  intros Hrun p. subst p.
  destruct s as [r w q n e]. simpl in *. subst r.
  destruct (node_null_or_not (parentNode (dom e))) as [Hp|Hp].
  { rewrite !getSizeElement_detached by done. simpl.
    by rewrite app_nil_r, orb_false_r, orb_true_r. }
  rewrite !getSizeElement_attached by done. simpl.
  destruct (before_answer cfg on dataAttr width e).2; simpl.
  { by rewrite app_nil_r, orb_false_r, orb_true_r. }
  destruct (JS.truthy _ && negb _); simpl.
  - unfold sizeElement, rAFIt, FrameBatcher.rAF, enqueue. simpl.
    by destruct w.
  - by rewrite app_nil_r, orb_false_r, orb_true_r.
Qed.

Lemma update_in_document_eq elem dataAttr width (s : Collection.document) e :
  running s = false →
  world s !! elem = Some e →
  let p := getSizeElement cfg on dataAttr width (Sample.fresh e) in
  Collection.getSizeElement cfg on elem dataAttr width s
  = {| running := false;
       waiting := waiting s || negb (bool_decide (queue p = []));
       queue := queue s ++ map (Collection.tag elem) (queue p);
       frames := if waiting s || bool_decide (queue p = []) then frames s
                 else S (frames s);
       world := <[elem := world p]> (world s) |}.
Proof.
  intros Hrun Hlookup p. subst p.
  destruct s as [r w q n doc]. simpl in *. subst r.
  unfold Collection.getSizeElement. simpl. rewrite Hlookup.
  destruct (node_null_or_not (parentNode (dom e))) as [Hp|Hp].
  { rewrite getSizeElement_detached by done. simpl. rewrite Hp.
    by rewrite app_nil_r, orb_false_r, orb_true_r, list_insert_id. }
  rewrite getSizeElement_attached by done.
  unfold before_answer, before_dispatched, triggerEvent.
  change (world (Sample.fresh e)) with e.
  destruct (parentNode (dom e)) as [|pw pp] eqn:Hparent; [done|].
  destruct (on e _ _) as [d' prevented]. simpl.
  destruct prevented; simpl.
  { by rewrite app_nil_r, orb_false_r, orb_true_r. }
  destruct (JS.truthy _ && negb _); simpl.
  - unfold Collection.sizeElement, sizeElement, rAFIt, FrameBatcher.rAF,
      enqueue. simpl.
    by destruct w.
  - by rewrite app_nil_r, orb_false_r, orb_true_r.
Qed.

(** X18. Updating one element of a document is the single-element
    update of that element: outside a batch, the element at that
    position becomes what the update makes of it on a page of its own,
    the closures that update queues are appended, for that element, to
    the document's queue, and an animation frame is requested if
    something was queued and none was awaited.  No other element
    changes, and the document keeps its length. *)
Theorem update_in_document elem dataAttr width (s : Collection.document) e :
  running s = false →
  world s !! elem = Some e →
  let p := getSizeElement cfg on dataAttr width (Sample.fresh e) in
  let s' := Collection.getSizeElement cfg on elem dataAttr width s in
  s' = {| running := false;
          waiting := waiting s || negb (bool_decide (queue p = []));
          queue := queue s ++ map (Collection.tag elem) (queue p);
          frames := if waiting s || bool_decide (queue p = []) then frames s
                    else S (frames s);
          world := <[elem := world p]> (world s) |}
  ∧ length (world s') = length (world s)
  ∧ ∀ other, other ≠ elem → world s' !! other = world s !! other.
Proof.
  intros Hrun Hlookup p s'. subst s'.
  rewrite (update_in_document_eq elem dataAttr width s e) by done.
  simpl. split; [done|]. split; [apply length_insert|].
  intros other Hne. by apply list_lookup_insert_ne.
Qed.

End CollectionFacts.

Lemma update_in_document_witness :
  world (Collection.getSizeElement defaults silent 1 false JS.Undefined
           {| running := false; waiting := false; queue := []; frames := 0;
              world := [Sample.img 450; Sample.img 300] |}) !! 0%nat
  = Some (Sample.img 450).
Proof.
  exact (proj2 (proj2 (update_in_document defaults silent 1 false
                         JS.Undefined
                         {| running := false; waiting := false; queue := [];
                            frames := 0;
                            world := [Sample.img 450; Sample.img 300] |}
                         (Sample.img 300) eq_refl eq_refl))
           0%nat ltac:(discriminate)).
Defined.


(** ** The configuration objects *)

Lemma library_of_load : library_of Loader.load = Some load.
Proof. reflexivity. Qed.

Lemma library_of_init autoSizesConfig (e : Loader.env) (l : library) :
  library_of e = Some l →
  library_of (Loader.autoSizes_init autoSizesConfig e)
  = Some (autoSizes_init autoSizesConfig l).
Proof.
  unfold library_of, Loader.config_in_use, Loader.autoSizes_init,
    autoSizes_init.
  destruct e as [objs c pc w i]. simpl.
  destruct (objs !! c) as [o|] eqn:Ho; simpl; [|done].
  intros [= <-]. simpl. destruct i; simpl.
  - by rewrite Ho.
  - by rewrite lookup_app_r, Nat.sub_diag.
Qed.

(** X20. [autoSizes.cfg] is not the configuration in use.  Once the
    library is initialised, the functions of the module read the object
    that [initConfig] created, while [autoSizes.cfg] still refers to the
    object created when the module was evaluated: it shows the defaults
    (not the overrides of [window.autoSizesConfig]), and assignments to
    its properties change nothing of what the library reads.
    Assignments made before [init] take effect until [init] runs and are
    discarded by it. *)
Theorem cfg_is_not_the_config_in_use (autoSizesConfig : option UserConfig)
    (update : Config → Config) :
  let e := Loader.autoSizes_init autoSizesConfig Loader.load in
  Loader.config_in_use e = Some (initConfig autoSizesConfig)
  ∧ Loader.public_cfg e = Some defaults
  ∧ Loader.config_in_use (Loader.assign update e)
    = Some (initConfig autoSizesConfig)
  ∧ Loader.public_cfg (Loader.assign update e) = Some (update defaults)
  ∧ Loader.config_in_use (Loader.assign update Loader.load)
    = Some (update defaults)
  ∧ Loader.config_in_use
      (Loader.autoSizes_init autoSizesConfig
         (Loader.assign update Loader.load))
    = Some (initConfig autoSizesConfig).
Proof. repeat split. Qed.

(** X21. The entry point initialises the library whatever
    [window.autoSizesConfig] contains, [init: false] included: the test
    [autoSizes.cfg.init !== false] reads the object of the defaults,
    because the overrides are merged only by [init] itself.  When the
    document is still loading the initialisation waits for
    [DOMContentLoaded] and merges the overrides present at that moment. *)
Theorem entry_always_initialises (at_import at_ready : option UserConfig)
    (loading : bool) :
  let e := Loader.dom_ready at_ready (Loader.entry at_import loading) in
  Loader.initialized e = true
  ∧ Loader.config_in_use e
    = Some (initConfig (if loading then at_ready else at_import))
  ∧ (Loader.entry at_import loading).2 = loading.
Proof. by destruct loading. Qed.

(** ** The commit of version 1.0.0 *)

Lemma V100_commit_elem on width elem parent :
  attributes (V100.sizeElement_body on width (elem, parent)).1
  = <["sizes" := px width]> (attributes elem)
  ∧ _autosizesWidth (V100.sizeElement_body on width (elem, parent)).1 = width.
Proof.
  unfold V100.sizeElement_body. simpl. by rewrite triggerEvent_elem.
Qed.

Lemma V100_commits_snoc on widths width args :
  V100.commits on (widths ++ [width]) args
  = V100.sizeElement_body on width (V100.commits on widths args).
Proof. unfold V100.commits. by rewrite fold_left_app. Qed.

(** X22. In version 1.0.0 every commit writes the attribute: after any
    sequence of commits the [sizes] attribute of the element is the last
    committed width in pixels and the cached width is that width, so the
    attribute always agrees with the cache. *)
Theorem V100_attribute_follows_cache on widths width elem parent :
  let elem' := (V100.commits on (widths ++ [width]) (elem, parent)).1 in
  attributes elem' !! "sizes" = Some (px width)
  ∧ _autosizesWidth elem' = width
  ∧ attributes elem' !! "sizes" = Some (px (_autosizesWidth elem')).
Proof.
  intros elem'. subst elem'. rewrite V100_commits_snoc.
  destruct (V100.commits on widths (elem, parent)) as [e p].
  destruct (V100_commit_elem on width e p) as [-> ->].
  by rewrite lookup_insert_eq.
Qed.

(** X23. In version 1.0.0 a commit under a [picture] parent (the node
    name is compared without regard to case) gives every [source]
    element of the parent the same [sizes] value as the image and leaves
    their other attributes alone; under any other parent no [source]
    element is touched. *)
Theorem V100_picture_sources on width elem parent :
  let parent' := (V100.sizeElement_body on width (elem, parent)).2 in
  (V100.regPicture_test (default EmptyString (V100.nodeName parent)) = true →
   length (V100.sources parent') = length (V100.sources parent)
   ∧ ∀ i source,
       V100.sources parent !! i = Some source →
       ∃ source', V100.sources parent' !! i = Some source'
         ∧ source' !! "sizes" = Some (px width)
         ∧ ∀ name, name ≠ "sizes" → source' !! name = source !! name)
  ∧ (V100.regPicture_test (default EmptyString (V100.nodeName parent)) = false →
     parent' = parent).
Proof.
  intros parent'. subst parent'. unfold V100.sizeElement_body. simpl.
  split; intros ->; [|done]. simpl.
  split; [apply length_fmap|].
  intros i source Hsource. eexists. rewrite list_lookup_fmap, Hsource.
  split; [done|]. split; [apply lookup_insert_eq|].
  intros name Hname. by rewrite lookup_insert_ne.
Qed.

Lemma V100_picture_sources_witness :
  ∃ source',
    V100.sources
      (V100.sizeElement_body silent (JS.Num 450)
         (Sample.img 450,
          {| V100.nodeName := Some "PICTURE";
             V100.sources := [{[ "srcset" := "a.jpg 300w" ]}] |})).2
    !! 0%nat = Some source'
    ∧ source' !! "sizes" = Some "450px"
    ∧ ∀ name, name ≠ "sizes" →
        source' !! name
        = ({[ "srcset" := "a.jpg 300w" ]} : gmap string string) !! name.
Proof.
  exact (proj2 (proj1 (V100_picture_sources silent (JS.Num 450)
                         (Sample.img 450)
                         {| V100.nodeName := Some "PICTURE";
                            V100.sources := [{[ "srcset" := "a.jpg 300w" ]}] |})
                  eq_refl)
           0%nat {[ "srcset" := "a.jpg 300w" ]} eq_refl).
Defined.

(** ** The commit on the DOM *)

Lemma lower_plain_character (c : ascii) :
  lower_case_letter c || decimal_digit c || Ascii.eqb c "-" = true →
  V100.lower c = c.
Proof.
  unfold V100.lower, lower_case_letter, decimal_digit.
  destruct (Ascii.eqb c "-") eqn:Hc.
  { apply Ascii.eqb_eq in Hc as ->. reflexivity. }
  rewrite orb_false_r.
  destruct ((65 <=? nat_of_ascii c)%nat && (nat_of_ascii c <=? 90)%nat)
    eqn:Hupper; [|done].
  apply andb_true_iff in Hupper as [H65%Nat.leb_le H90%Nat.leb_le].
  intros [[H97%Nat.leb_le _]%andb_true_iff
         |[_ H57%Nat.leb_le]%andb_true_iff]%orb_true_iff; lia.
Qed.

Lemma lowercase_name_characters (s : string) :
  name_characters s = true → V100.lowercase s = s.
Proof.
  induction s as [|c s IH]; simpl; [done|].
  intros [Hc Hs]%andb_true_iff.
  by rewrite lower_plain_character, IH.
Qed.

(** A plain name is its own lower-case form, and is not [class]. *)
Lemma lowercase_plain_name (s : string) :
  plain_name s = true → V100.lowercase s = s ∧ s ≠ "class".
Proof.
  unfold plain_name. intros [Hs Hclass]%andb_true_iff.
  split.
  - destruct s as [|c s]; [done|].
    apply andb_true_iff in Hs as [Hc Hs]. simpl.
    rewrite lower_plain_character, lowercase_name_characters; try done.
    by rewrite Hc.
  - apply negb_true_iff in Hclass. by apply String.eqb_neq.
Qed.

Section DomFacts.

Variable valid_name : string → bool.
Hypothesis plain_names_valid :
  ∀ name, plain_name name = true → valid_name name = true.

Lemma dom_setAttribute_plain (name value : string) (elem : element) :
  plain_name name = true →
  Dom.setAttribute valid_name name value elem
  = Returned (setAttribute name value elem).
Proof.
  intros Hname. unfold Dom.setAttribute, setAttribute.
  rewrite plain_names_valid by done.
  destruct (lowercase_plain_name name Hname) as [-> Hclass].
  apply String.eqb_neq in Hclass. by rewrite Hclass.
Qed.

Lemma dom_hasSizesAuto_plain cfg (elem : element) :
  plain_name (sizesAttr cfg) = true →
  Dom.hasSizesAuto cfg elem = hasSizesAuto cfg elem.
Proof.
  intros [Hlower _]%lowercase_plain_name.
  unfold Dom.hasSizesAuto, Dom.getAttribute, hasSizesAuto, getAttribute.
  by rewrite Hlower.
Qed.

Lemma dom_setSizesAttr_plain cfg (value : string) (elem : element) :
  plain_name (sizesAttr cfg) = true →
  (if hasPrefix (sizesAttr cfg)
   then plain_name (getBaseAttr (sizesAttr cfg)) else true) = true →
  Dom.setSizesAttr valid_name cfg value elem
  = Returned (setSizesAttr cfg value elem).
Proof.
  intros Hattr Hbase.
  unfold Dom.setSizesAttr, setSizesAttr.
  rewrite dom_setAttribute_plain by done. simpl.
  destruct (hasPrefix (sizesAttr cfg)); [|done].
  by rewrite dom_setAttribute_plain.
Qed.

(** Under a configuration whose names are plain the commit on the DOM
    returns, and it leaves the element of the commit of the embedding,
    with the [class] attribute that [classList.add] has written. *)
Lemma commit_on_the_DOM cfg on (width : JS.value) (elem : element) :
  well_configured cfg = true →
  let elem' := sizeElement_body cfg on width elem in
  Dom.sizeElement_body valid_name cfg on width elem
  = Returned
      {| dom := dom elem';
         attributes :=
           if negb (String.eqb (processedElementClass cfg) "")
           then <["class" := String.concat " " (classList elem')]>
                  (attributes elem')
           else attributes elem';
         classList := classList elem';
         _autosizesWidth := _autosizesWidth elem';
         oplog := oplog elem' |}.
Proof.
  intros Hcfg elem'. subst elem'.
  pose proof Hcfg as Hcfg'. unfold well_configured in Hcfg'.
  apply andb_true_iff in Hcfg' as [[Hattr Hbase]%andb_true_iff Hcls].
  unfold Dom.sizeElement_body, sizeElement_body.
  rewrite dom_hasSizesAuto_plain by done.
  rewrite !triggerEvent_elem.
  set (e1 := set_autosizesWidth width elem).
  assert (Hstep1 :
    (if hasSizesAuto cfg e1
     then Dom.setSizesAttr valid_name cfg (px width) e1
     else Returned e1)
    = Returned (if hasSizesAuto cfg e1 then setSizesAttr cfg (px width) e1
                else e1)).
  { destruct (hasSizesAuto cfg e1); [by apply dom_setSizesAttr_plain|done]. }
  rewrite Hstep1. simpl.
  set (e2 := if hasSizesAuto cfg e1 then setSizesAttr cfg (px width) e1
             else e1).
  destruct (String.eqb (processedElementClass cfg) "") eqn:Hempty; simpl.
  - by rewrite triggerEvent_elem.
  - unfold Dom.classList_add. rewrite Hempty, Hcls. simpl.
    by rewrite triggerEvent_elem.
Qed.

(** With a marker class that has a space, the commit of the sample image
    throws in [classList.add]: the width is cached and the attribute
    written, but no class is added and no "after" event dispatched. *)
Lemma commit_with_spaced_marker_throws :
  Dom.sizeElement_body valid_name spaced_marker silent (JS.Num 450)
    (Sample.img 450)
  = Threw {| dom := Node (JS.Num 450) Sample.container;
             attributes := {[ "sizes" := "450px" ]};
             classList := ["autosizes"];
             _autosizesWidth := JS.Num 450;
             oplog := [SetAttribute "sizes" "450px"] |}.
Proof.
  unfold Dom.sizeElement_body.
  rewrite dom_hasSizesAuto_plain by done.
  assert (Hauto : hasSizesAuto spaced_marker
                    (set_autosizesWidth (JS.Num 450) (Sample.img 450))
                  = true) by reflexivity.
  rewrite Hauto, dom_setSizesAttr_plain by done.
  reflexivity.
Qed.

(** Two commits of that page are pending when the animation frame comes:
    the first one throws, and the second one stays in the queue of a
    batcher that is left running. *)
Lemma spaced_marker_stops_the_batch :
  ∃ elem,
    Throwing.frame (Dom.sizeElement_body valid_name spaced_marker silent) 2
      {| running := false; waiting := true;
         queue := [Do (JS.Num 450) Return; Do (JS.Num 600) Return];
         frames := 1; world := Sample.img 450 |}
    = Some (Threw {| running := true; waiting := false;
                     queue := [Do (JS.Num 600) Return];
                     frames := 0; world := elem |})
    ∧ after_events (oplog elem) = 0%nat.
Proof.
  eexists. unfold Throwing.frame, Throwing.run. simpl.
  rewrite commit_with_spaced_marker_throws. simpl. split; reflexivity.
Qed.

End DomFacts.

(** ** The pass over the live collection *)

Lemma imap_unchanged {A : Type} (l : list A) : imap (λ _ x, x) l = l.
Proof.
  assert (H : ∀ f : nat → A → A, (∀ i x, f i x = x) → imap f l = l).
  { induction l as [|x l IH]; intros f Hf; [done|].
    simpl. rewrite Hf, IH; [done|]. intros i y. apply Hf. }
  by apply H.
Qed.

Lemma alter_is_insert {A : Type} (f : A → A) (l : list A) : ∀ i x,
  l !! i = Some x → alter f i l = <[i := f x]> l.
Proof.
  induction l as [|y l IH]; intros [|i] x Hx; simpl in *; try done.
  - by injection Hx as ->.
  - f_equal. by apply IH.
Qed.

Section LiveLoop.

Variable valid_name : string → bool.
Variable quirks : bool.
Variable cfg : Config.

Lemma members_length (names : string) (doc : list element) : ∀ i,
  (length (Live.getElementsByClassName_from quirks names i doc)
   ≤ length doc)%nat.
Proof.
  induction doc as [|x doc IH]; intros i; simpl; [done|].
  specialize (IH (S i)). destruct (Live.has_classes _ _ _); simpl; lia.
Qed.

(** Whatever the listeners do to the elements, the document keeps its
    length. *)
Lemma live_triggerEvent_length (on' : Live.handlers) doc elem name d :
  length (Live.triggerEvent on' doc elem name d).2 = length doc.
Proof.
  unfold Live.triggerEvent. destruct (on' doc elem name d) as [[change d'] p].
  simpl. by rewrite length_imap, length_alter.
Qed.

Lemma live_sizeElement_body_length (on' : Live.handlers) args doc :
  length (reached (Live.sizeElement_body valid_name cfg on' args doc))
  = length doc.
Proof.
  unfold Live.sizeElement_body. destruct args as [elem width].
  destruct (doc !! elem) as [e|]; [|done].
  destruct (if Dom.hasSizesAuto cfg _ then _ else _) as [e1|e1]; simpl;
    [|by rewrite length_insert].
  destruct (if negb _ then _ else _) as [e2|e2]; simpl;
    [|by rewrite length_insert].
  by rewrite live_triggerEvent_length, length_insert.
Qed.

Lemma live_getSizeElement_length (on' : Live.handlers) elem dataAttr width
    (s : Collection.document) :
  length (world (reached (Live.getSizeElement valid_name cfg on' elem
                            dataAttr width s)))
  = length (world s).
Proof.
  unfold Live.getSizeElement.
  destruct (world s !! elem) as [e|]; [|done].
  destruct (parentNode (dom e)) as [|pw pp]; [done|].
  pose proof (live_triggerEvent_length on' (world s) elem "beforeSizesUpdate"
                (BeforeDetail (getWidth cfg e (Node pw pp) width) dataAttr))
    as Hlen.
  destruct (Live.triggerEvent _ _ _ _ _) as [event doc]. simpl in Hlen.
  destruct (defaultPrevented event); [done|].
  destruct (doc !! elem) as [e'|]; [|done].
  destruct (JS.truthy _ && negb _); [|done].
  unfold Live.sizeElement, Throwing.rAF.
  pose proof (live_sizeElement_body_length on'
                (elem, detail_width (ev_detail event)) doc) as Hbody.
  remember (Live.sizeElement_body valid_name cfg on') as body eqn:Hb.
  clear Hb. simpl.
  destruct (running s); simpl.
  - destruct (body _ _); simpl in *; congruence.
  - unfold enqueue. simpl. by destruct (waiting s).
Qed.

(** The loop ends within as many iterations as the document has
    elements. *)
Lemma live_pass_terminates (on' : Live.handlers) (names : string) :
  ∀ fuel i (s : Collection.document),
  (length (world s) ≤ fuel + i)%nat →
  is_Some (Live.updateElementsSizes_for valid_name quirks cfg on' names
             fuel i s).
Proof.
  induction fuel as [|fuel IH]; intros i s Hlen; simpl.
  - destruct (Live.getElementsByClassName _ _ _ !! i) as [elem|] eqn:Hi;
      [|by eexists].
    apply lookup_lt_Some in Hi.
    pose proof (members_length names (world s) 0) as Hle.
    unfold Live.getElementsByClassName in Hi. simpl in Hlen. lia.
  - destruct (Live.getElementsByClassName _ _ _ !! i) as [elem|] eqn:Hi;
      [|by eexists].
    pose proof (live_getSizeElement_length on' elem false JS.Undefined s)
      as Hkeep.
    destruct (Live.getSizeElement _ _ _ _ _ _ _) as [s'|s']; [|by eexists].
    apply IH. simpl in Hkeep. lia.
Qed.

End LiveLoop.

Section LiveFacts.

Variable valid_name : string → bool.
Variable quirks : bool.
Variable cfg : Config.
Variable on : listeners.
Variable names : string.

Local Abbreviation alone e :=
  (getSizeElement cfg on false JS.Undefined (Sample.fresh e)).
Local Abbreviation touched :=
  (λ e : element, if Live.has_classes quirks names e then world (alone e)
                  else e).
Local Abbreviation step :=
  (λ (s : Collection.document) (elem : nat),
     Collection.getSizeElement cfg on elem false JS.Undefined s).
Local Abbreviation members :=
  (Live.getElementsByClassName_from quirks names).

(** Outside a batch, and with listeners that leave the document as it
    is, the update of an element of the document returns, and it is the
    update of [Collection]. *)
Lemma live_getSizeElement_lift elem dataAttr width
    (s : Collection.document) :
  running s = false →
  Live.getSizeElement valid_name cfg (Live.lift on) elem dataAttr width s
  = Returned (Collection.getSizeElement cfg on elem dataAttr width s).
Proof.
  intros Hrun.
  unfold Live.getSizeElement, Collection.getSizeElement.
  destruct (world s !! elem) as [e|] eqn:He; [|done].
  destruct (parentNode (dom e)) as [|pw pp] eqn:Hparent; [done|].
  unfold Live.triggerEvent, Live.lift, triggerEvent. rewrite He.
  destruct (on e _ _) as [d' prevented]. simpl.
  rewrite imap_unchanged, (alter_is_insert _ _ _ e) by done.
  destruct prevented; [done|].
  rewrite list_lookup_insert_eq by by eapply lookup_lt_Some.
  simpl.
  destruct (JS.truthy _ && negb _); [|done].
  unfold Live.sizeElement, Collection.sizeElement, Throwing.rAF, rAF.
  simpl. by rewrite Hrun.
Qed.

Lemma alone_classList (e : element) :
  classList (world (alone e)) = classList e.
Proof.
  by destruct (getSizeElement_not_running cfg on false JS.Undefined
                 (Sample.fresh e) eq_refl) as [(_ & -> & _) _].
Qed.

Lemma has_classes_classList (e e' : element) :
  classList e' = classList e →
  Live.has_classes quirks names e' = Live.has_classes quirks names e.
Proof. unfold Live.has_classes. by intros ->. Qed.

Lemma members_insert (doc : list element) : ∀ i j e e',
  doc !! j = Some e →
  classList e' = classList e →
  members i (<[j := e']> doc) = members i doc.
Proof.
  induction doc as [|x doc IH]; intros i j e e' Hlookup Hcls; [done|].
  destruct j as [|j]; simpl in *.
  - injection Hlookup as ->. by rewrite (has_classes_classList e e').
  - by rewrite (IH (S i) j e e').
Qed.

Lemma members_bound (doc : list element) : ∀ i j,
  j ∈ members i doc →
  (i ≤ j)%nat ∧ is_Some (doc !! (j - i)%nat).
Proof.
  induction doc as [|x doc IH]; intros i j Hin; simpl in Hin.
  - by apply elem_of_nil in Hin.
  - assert (Hrest : j ∈ members (S i) doc →
                    (i ≤ j)%nat ∧ is_Some ((x :: doc) !! (j - i)%nat)).
    { intros H. apply IH in H as [Hle Hsome]. split; [lia|].
      replace (j - i)%nat with (S (j - S i)) by lia. done. }
    destruct (Live.has_classes _ _ _); [|by apply Hrest].
    apply elem_of_cons in Hin as [->|Hin]; [|by apply Hrest].
    split; [done|]. rewrite Nat.sub_diag. by eexists.
Qed.

Lemma step_settled (s : Collection.document) elem e :
  settled s →
  world s !! elem = Some e →
  settled (step s elem)
  ∧ world (step s elem) = <[elem := world (alone e)]> (world s)
  ∧ queue (step s elem)
    = queue s ++ map (Collection.tag elem) (queue (alone e)).
Proof.
  intros (Hrun & Hwait & Hframes) Hlookup.
  rewrite (update_in_document_eq cfg on elem false JS.Undefined s e)
    by done.
  split; [|done]. unfold settled. simpl. split; [done|].
  destruct s as [r w q n doc]. simpl in *.
  destruct (queue (alone e)) as [|f fs]; simpl.
  - rewrite app_nil_r, orb_false_r, orb_true_r. done.
  - rewrite orb_true_r, orb_false_r.
    rewrite (bool_decide_eq_false_2 (q ++ _ = [])) by by destruct q.
    split; [done|]. subst n. by destruct w.
Qed.

Lemma pass_is_fold (js : list nat) : ∀ i fuel (s : Collection.document),
  settled s →
  drop i (Live.getElementsByClassName quirks names (world s)) = js →
  (length js ≤ fuel)%nat →
  Live.updateElementsSizes_for valid_name quirks cfg (Live.lift on) names
    fuel i s
  = Some (Returned (fold_left step js s)).
Proof.
  induction js as [|j js IH]; intros i fuel s Hs Hdrop Hfuel.
  - assert (Hnone : Live.getElementsByClassName quirks names (world s) !! i
                    = None).
    { rewrite <- (Nat.add_0_r i), <- lookup_drop. by rewrite Hdrop. }
    destruct fuel; simpl; by rewrite Hnone.
  - assert (Hsome : Live.getElementsByClassName quirks names (world s) !! i
                    = Some j).
    { rewrite <- (Nat.add_0_r i), <- lookup_drop. by rewrite Hdrop. }
    destruct fuel as [|fuel]; [simpl in Hfuel; lia|].
    simpl. rewrite Hsome.
    rewrite live_getSizeElement_lift by apply Hs.
    assert (Hin : j ∈ Live.getElementsByClassName quirks names (world s))
      by (apply list_elem_of_lookup; eauto).
    apply members_bound in Hin as [_ [e He]].
    rewrite Nat.sub_0_r in He.
    destruct (step_settled s j e Hs He) as (Hs1 & Hw1 & _).
    apply IH; [done| |simpl in Hfuel; lia].
    rewrite Hw1. unfold Live.getElementsByClassName.
    rewrite (members_insert (world s) 0 j e) by (done || apply alone_classList).
    rewrite (drop_S _ _ _ Hsome) in Hdrop. by injection Hdrop.
Qed.

Lemma fold_over_members (r : list element) :
  ∀ (pre : list element) (s : Collection.document),
  settled s →
  world s = pre ++ r →
  let s' := fold_left step (members (length pre) r) s in
  settled s'
  ∧ world s' = pre ++ map touched r
  ∧ queue s' = queue s ++ pass_closures quirks cfg on names (length pre) r.
Proof.
  induction r as [|e r IH]; intros pre s Hs Hworld; simpl.
  - rewrite app_nil_r in Hworld. by rewrite !app_nil_r.
  - destruct (Live.has_classes quirks names e) eqn:Hcls; simpl.
    + assert (He : world s !! length pre = Some e)
        by (rewrite Hworld; apply list_lookup_middle; done).
      destruct (step_settled s (length pre) e Hs He) as (Hs1 & Hw1 & Hq1).
      rewrite Hworld in Hw1.
      rewrite <- (Nat.add_0_r (length pre)), insert_app_r in Hw1.
      simpl in Hw1. rewrite Nat.add_0_r in Hw1.
      destruct (IH (pre ++ [world (alone e)]) _ Hs1) as (Hs' & Hw' & Hq').
      { by rewrite Hw1, <- app_assoc. }
      rewrite length_app, Nat.add_1_r in Hs', Hw', Hq'.
      split; [done|]. split.
      * by rewrite Hw', <- app_assoc.
      * by rewrite Hq', Hq1, <- app_assoc.
    + destruct (IH (pre ++ [e]) s Hs) as (Hs' & Hw' & Hq').
      { by rewrite Hworld, <- app_assoc. }
      rewrite length_app, Nat.add_1_r in Hs', Hw', Hq'.
      split; [done|]. split; [|done].
      by rewrite Hw', <- app_assoc.
Qed.

(** X19. Take a document outside a batch and a pass of
    [updateElementsSizes] over it, with room for as many iterations as
    the document has elements.  With listeners that leave the document
    as it is, the pass returns; it has visited the elements that carry
    every class of the collection's names (compared regardless of case
    in quirks mode), in document order, and done to each what the
    single-element update does to it on a page of its own; every other
    element is as before; the commits it has queued are, in document
    order, those that the single-element updates queue; and the batcher
    is settled, so that one animation frame in all is awaited when
    something is queued.  Whatever listeners do to the elements (short
    of inserting, removing or moving some), the loop ends within the
    bound, for any names; before [init] the pass does nothing.  A
    listener that takes the class off the element being updated shrinks
    the collection under the loop: of two images with the class, the
    second one is then never visited. *)
Theorem pass_updates_each_element fuel (s : Collection.document) :
  settled s →
  (length (world s) ≤ fuel)%nat →
  (∃ s1,
     Live.updateElementsSizes valid_name quirks cfg (Live.lift on)
       (Some names) fuel s
     = Some (Returned s1)
     ∧ settled s1
     ∧ world s1 = map touched (world s)
     ∧ queue s1 = queue s ++ pass_closures quirks cfg on names 0 (world s))
  ∧ (∀ (on' : Live.handlers) (elements : option string),
       is_Some (Live.updateElementsSizes valid_name quirks cfg on' elements
                  fuel s))
  ∧ Live.updateElementsSizes valid_name quirks cfg (Live.lift on) None fuel s
    = Some (Returned s)
  ∧ (let s0 := {| running := false; waiting := false; queue := [];
                  frames := 0;
                  world := [Sample.img 450; Sample.img 300] |} in
     ∃ first second,
       Live.updateElementsSizes valid_name quirks defaults
         (Live.drop_class "autosizes") (Some "autosizes") 2 s0
       = Some (Returned
                 {| running := false; waiting := true;
                    queue := [Do (0%nat, JS.Num 450) Return];
                    frames := 1; world := [first; second] |})
       ∧ classList first = []
       ∧ second = Sample.img 300).
Proof.
  intros Hs Hfuel.
  split; [|split; [|split; [done|]]].
  - unfold Live.updateElementsSizes.
    destruct (fold_over_members (world s) [] s Hs eq_refl)
      as (Hs1 & Hw1 & Hq1).
    simpl in Hs1, Hw1, Hq1.
    destruct (Live.getElementsByClassName quirks names (world s))
      as [|j js] eqn:Hmembers.
    + exists s. simpl. split; [done|]. split; [done|].
      unfold Live.getElementsByClassName in Hmembers.
      rewrite Hmembers in Hw1, Hq1. simpl in Hw1, Hq1. done.
    + eexists. split.
      * change (length (j :: js) =? 0)%nat with false. simpl.
        apply (pass_is_fold (j :: js) 0 fuel s Hs); [by rewrite Hmembers|].
        rewrite <- Hmembers. etrans; [apply members_length|done].
      * unfold Live.getElementsByClassName in Hmembers.
        rewrite Hmembers in Hs1, Hw1, Hq1. done.
  - intros on' [names'|]; simpl; [|by eexists].
    destruct (_ =? _)%nat; [by eexists|].
    apply live_pass_terminates. lia.
  - destruct quirks; eexists _, _; (split; [vm_compute; reflexivity|]);
      split; reflexivity.
Qed.

End LiveFacts.

(** Two images with the class and a logo without it, under the default
    configuration and with no listener: the images are visited, in
    order, and their commits queued. *)
Lemma pass_updates_each_element_witness :
  ∃ s1,
    Live.updateElementsSizes plain_name false defaults (Live.lift silent)
      (Some "autosizes") 3
      {| running := false; waiting := false; queue := []; frames := 0;
         world := [Sample.img 450;
                   {| dom := Node (JS.Num 200) Sample.container;
                      attributes := {[ "sizes" := "auto" ]};
                      classList := ["logo"];
                      _autosizesWidth := JS.Undefined; oplog := [] |};
                   Sample.img 300] |}
    = Some (Returned s1)
    ∧ queue s1 = [Do (0%nat, JS.Num 450) Return;
                  Do (2%nat, JS.Num 300) Return].
Proof.
  destruct (proj1 (pass_updates_each_element plain_name false defaults
                     silent "autosizes" 3
                     {| running := false; waiting := false; queue := [];
                        frames := 0;
                        world := [Sample.img 450;
                                  {| dom := Node (JS.Num 200)
                                              Sample.container;
                                     attributes := {[ "sizes" := "auto" ]};
                                     classList := ["logo"];
                                     _autosizesWidth := JS.Undefined;
                                     oplog := [] |};
                                  Sample.img 300] |}
                     (conj eq_refl (conj eq_refl eq_refl))
                     ltac:(simpl; lia)))
    as (s1 & Hpass & _ & _ & Hqueue).
  exists s1. split; [exact Hpass|]. rewrite Hqueue. reflexivity.
Defined.
